(** * carcols_normalizer: run detection, replacement and the file loop

    A shallow embedding of [src/script/carcols_normalizer.py]: the two
    regular expressions [ITEM_RE] and [TYPE_RE] (run by a small backtracking
    matcher that follows Python's [re] on the constructs they use),
    [build_items], [scan_items], the grouping and splicing loops of [main],
    its loop over the files with the backup and the dry run, [_human_size]
    and [clean_backups].  The files are a list of paths with contents; what
    [rglob] finds, the answer typed at the prompt and the failures of
    [unlink] are arguments.

    Text is a list of 8-bit characters.  The character classes ([\s], [\b],
    [str.upper], [str.strip], case-insensitive matching) are Python's on code
    points below 128; larger code points are taken as caseless, non-blank and
    non-word characters. *)

From Stdlib Require Import Ascii String DecimalString List Bool Arith NArith Lia.
Import ListNotations.

Local Open Scope list_scope.

(** ** Text and Python's string operations *)

Definition text := list ascii.

Definition lit (s : string) : text := list_ascii_of_string s.

Definition code (c : ascii) : nat := nat_of_ascii c.

Definition in_range (lo hi : nat) (c : ascii) : bool :=
  (lo <=? code c) && (code c <=? hi).

(** [str.isspace] and the regex class [\s]: TAB, LF, VT, FF, CR,
    FS, GS, RS, US and SPACE. *)
Definition is_space (c : ascii) : bool :=
  in_range 9 13 c || in_range 28 32 c.

(** The class [[ \t]]. *)
Definition is_blank (c : ascii) : bool :=
  Ascii.eqb c " "%char || Ascii.eqb c "009"%char.

(** The regex class [\w], used by [\b]. *)
Definition is_word (c : ascii) : bool :=
  in_range 48 57 c || in_range 65 90 c || in_range 97 122 c || Ascii.eqb c "_"%char.

Definition upper_char (c : ascii) : ascii :=
  if in_range 97 122 c then ascii_of_nat (code c - 32) else c.

Definition lower_char (c : ascii) : ascii :=
  if in_range 65 90 c then ascii_of_nat (code c + 32) else c.

(** [s.upper()] *)
Definition upper (s : text) : text := map upper_char s.

Fixpoint lstrip (s : text) : text :=
  match s with
  | c :: s' => if is_space c then lstrip s' else s
  | [] => []
  end.

Definition rstrip (s : text) : text := rev (lstrip (rev s)).

(** [s.strip()] *)
Definition strip (s : text) : text := rstrip (lstrip s).

(** [s.startswith(p)] *)
Fixpoint startswith (p s : text) : bool :=
  match p, s with
  | [], _ => true
  | a :: p', b :: s' => Ascii.eqb a b && startswith p' s'
  | _ :: _, [] => false
  end.

(** [a == b] on strings *)
Fixpoint text_eqb (a b : text) : bool :=
  match a, b with
  | [], [] => true
  | x :: a', y :: b' => Ascii.eqb x y && text_eqb a' b'
  | _, _ => false
  end.

(** [t[a:b]] for non-negative [a] and [b]: both ends are clipped to the
    length, and the slice is empty when [b <= a]. *)
Definition slice (t : text) (a b : nat) : text := firstn (b - a) (skipn a t).

(** [t[a:]] *)
Definition slice_from (t : text) (a : nat) : text := skipn a t.

(** ** A backtracking matcher for the constructs of [ITEM_RE] and [TYPE_RE] *)

Inductive regex : Type :=
| Eps
| Chr (p : ascii -> bool)                (* one character of a class *)
| Bol                                    (* [^] under (?m) *)
| WordB                                  (* [\b] *)
| Rep (greedy : bool) (p : ascii -> bool) (* [p*] and [p*?] over a class *)
| Seq (a b : regex)
| Grp (n : nat) (a : regex).             (* capturing group number [n] *)

(** A position in the subject: its offset, the character before it, the
    text from it on, and the groups captured so far. *)
Record cursor : Type := Cur {
  pos : nat;
  prev : option ascii;
  rest : text;
  caps : list (nat * (nat * nat))
}.

Definition set_cap (n : nat) (se : nat * nat) (c : cursor) : cursor :=
  Cur (pos c) (prev c) (rest c) ((n, se) :: caps c).

(** [^] with MULTILINE: at the start of the subject or just after a LF. *)
Definition at_bol (c : cursor) : bool :=
  match prev c with
  | None => true
  | Some x => Ascii.eqb x "010"%char
  end.

Definition word_before (c : cursor) : bool :=
  match prev c with Some x => is_word x | None => false end.

Definition word_after (c : cursor) : bool :=
  match rest c with x :: _ => is_word x | [] => false end.

(** [\b]: exactly one side is a word character. *)
Definition at_wordb (c : cursor) : bool :=
  xorb (word_before c) (word_after c).

Definition kont := cursor -> option cursor.

(** Greedy repetition: take as many characters as the class allows, then
    give them back one at a time until the continuation succeeds. *)
Fixpoint rep_greedy (p : ascii -> bool) (k : kont) (n : nat)
    (pv : option ascii) (cs : list (nat * (nat * nat))) (l : text)
    : option cursor :=
  match l with
  | x :: l' =>
      if p x then
        match rep_greedy p k (S n) (Some x) cs l' with
        | Some r => Some r
        | None => k (Cur n pv l cs)
        end
      else k (Cur n pv l cs)
  | [] => k (Cur n pv [] cs)
  end.

(** Lazy repetition: try the continuation first, take one more character
    only when it fails. *)
Fixpoint rep_lazy (p : ascii -> bool) (k : kont) (n : nat)
    (pv : option ascii) (cs : list (nat * (nat * nat))) (l : text)
    : option cursor :=
  match k (Cur n pv l cs) with
  | Some r => Some r
  | None =>
      match l with
      | x :: l' => if p x then rep_lazy p k (S n) (Some x) cs l' else None
      | [] => None
      end
  end.

Fixpoint run (r : regex) (k : kont) (c : cursor) : option cursor :=
  match r with
  | Eps => k c
  | Chr p =>
      match rest c with
      | x :: l => if p x then k (Cur (S (pos c)) (Some x) l (caps c)) else None
      | [] => None
      end
  | Bol => if at_bol c then k c else None
  | WordB => if at_wordb c then k c else None
  | Rep true p => rep_greedy p k (pos c) (prev c) (caps c) (rest c)
  | Rep false p => rep_lazy p k (pos c) (prev c) (caps c) (rest c)
  | Seq a b => run a (run b k) c
  | Grp n a => run a (fun c' => k (set_cap n (pos c, pos c') c')) c
  end.

(** A match object: [m.start()], [m.end()] and the captured groups. *)
Record rmatch : Type := Match {
  m_start : nat;
  m_end : nat;
  m_caps : list (nat * (nat * nat))
}.

Fixpoint cap_lookup (n : nat) (cs : list (nat * (nat * nat)))
    : option (nat * nat) :=
  match cs with
  | [] => None
  | (m, se) :: cs' => if m =? n then Some se else cap_lookup n cs'
  end.

(** [m.group(n)] on subject [t]; every group of the two expressions takes
    part in each of their matches. *)
Definition m_group (t : text) (m : rmatch) (n : nat) : text :=
  match cap_lookup n (m_caps m) with
  | Some (a, b) => slice t a b
  | None => []
  end.

(** [pattern.match] at one position. *)
Definition match_at (r : regex) (n : nat) (pv : option ascii) (l : text)
    : option cursor :=
  run r Some (Cur n pv l []).

(** The leftmost match at or after a position: the end cursor with the start
    offset. *)
Fixpoint search_from (r : regex) (n : nat) (pv : option ascii) (l : text)
    : option (nat * cursor) :=
  match match_at r n pv l with
  | Some c' => Some (n, c')
  | None =>
      match l with
      | x :: l' => search_from r (S n) (Some x) l'
      | [] => None
      end
  end.

(** [pattern.search(t)] *)
Definition search (r : regex) (t : text) : option rmatch :=
  match search_from r 0 None t with
  | Some (s, c') => Some (Match s (pos c') (caps c'))
  | None => None
  end.

(** [pattern.finditer(t)]: each search resumes where the previous match
    ended (one character further after an empty match).  There are at most
    [length t + 1] matches, which bounds the loop. *)
Fixpoint finditer_from (fuel : nat) (r : regex) (n : nat)
    (pv : option ascii) (l : text) : list rmatch :=
  match fuel with
  | 0 => []
  | S fuel' =>
      match search_from r n pv l with
      | None => []
      | Some (s, c') =>
          Match s (pos c') (caps c') ::
          (if pos c' =? s then
             match rest c' with
             | x :: l' => finditer_from fuel' r (S (pos c')) (Some x) l'
             | [] => []
             end
           else finditer_from fuel' r (pos c') (prev c') (rest c'))
      end
  end.

Definition finditer (r : regex) (t : text) : list rmatch :=
  finditer_from (S (length t)) r 0 None t.

(** ** The two expressions *)

(** A character of a literal under (?i). *)
Definition ci (a : ascii) : ascii -> bool :=
  fun c => Ascii.eqb (lower_char c) (lower_char a).

Fixpoint lit_ci (s : text) : regex :=
  match s with
  | [] => Eps
  | a :: s' => Seq (Chr (ci a)) (lit_ci s')
  end.

Definition any_char : ascii -> bool := fun _ => true.
Definition not_char (a : ascii) : ascii -> bool := fun c => negb (Ascii.eqb c a).

(** [ITEM_RE], compiled with the flags (?ims): group 1 is [^] followed by
    a greedy run of spaces and tabs; then the literal [<Item], [\b], a greedy
    run of characters other than [>], the [>], group 2 as a lazy run of any
    characters, and the literal [</Item>]. *)
Definition ITEM_RE : regex :=
  Seq (Grp 1 (Seq Bol (Rep true is_blank)))
 (Seq (lit_ci (lit "<Item"))
 (Seq WordB
 (Seq (Rep true (not_char ">"%char))
 (Seq (Chr (ci ">"%char))
 (Seq (Grp 2 (Rep false any_char))
      (lit_ci (lit "</Item>"))))))).

(** [TYPE_RE], compiled with the flags (?is): the literal [<type>], a
    greedy [\s] run, group 1 as one or more characters other than [<]
    (greedy), a greedy [\s] run, and the literal [</type>]. *)
Definition TYPE_RE : regex :=
  Seq (lit_ci (lit "<type>"))
 (Seq (Rep true is_space)
 (Seq (Grp 1 (Seq (Chr (not_char "<"%char)) (Rep true (not_char "<"%char))))
 (Seq (Rep true is_space)
      (lit_ci (lit "</type>"))))).

(** [re.fullmatch] of a greedy [\s] run against [between], as a truth
    value. *)
Definition fullmatch_ws (between : text) : bool :=
  match run (Rep true is_space)
            (fun c => match rest c with [] => Some c | _ :: _ => None end)
            (Cur 0 None between []) with
  | Some _ => true
  | None => false
  end.

(** ** [build_items] *)

(** The decimal digits an f-string gives a non-negative integer. *)
Definition str_nat (n : nat) : text := lit (NilZero.string_of_uint (Nat.to_uint n)).

Definition dq : text := ["034"%char].
Definition nl : text := ["010"%char].

Definition item_block (indent vtype : text) (val : nat) : text :=
  indent ++ lit "<Item>" ++ nl ++
  indent ++ lit "  <identifier />" ++ nl ++
  indent ++ lit "  <modifier value=" ++ dq ++ str_nat val ++ dq ++ lit " />" ++ nl ++
  indent ++ lit "  <audioApply value=" ++ dq ++ lit "1.000000" ++ dq ++ lit " />" ++ nl ++
  indent ++ lit "  <weight value=" ++ dq ++ lit "0" ++ dq ++ lit " />" ++ nl ++
  indent ++ lit "  <type>" ++ vtype ++ lit "</type>" ++ nl ++
  indent ++ lit "</Item>" ++ nl.

Definition build_items (indent vtype : text) : text :=
  concat (map (item_block indent vtype) [25; 50; 75; 100]).

(** ** [scan_items] *)

(** The tuple [(start, end, indent, vtype or None)]. *)
Record item : Type := Item {
  i_start : nat;
  i_end : nat;
  i_indent : text;
  i_vtype : option text
}.

Definition scan_one (t : text) (m : rmatch) : item :=
  let indent := m_group t m 1 in
  let inner := m_group t m 2 in
  let tm := search TYPE_RE inner in
  let vtype :=
    match tm with
    | Some tm' => Some (strip (m_group inner tm' 1))
    | None => None
    end in
  Item (m_start m) (m_end m) indent vtype.

Definition scan_items (t : text) : list item :=
  map (scan_one t) (finditer ITEM_RE t).

(** ** The loops of [main] on one file's text *)

Definition targets : list text :=
  [lit "VMT_GEARBOX"; lit "VMT_BRAKES"; lit "VMT_ENGINE"].

(** [vt in targets] *)
Definition in_targets (vt : text) : bool := existsb (text_eqb vt) targets.

(** The tuple [(group_start, group_end, group_indent, vt)]. *)
Record group : Type := Group {
  g_start : nat;
  g_end : nat;
  g_indent : text;
  g_vt : text
}.

(** The two guards at the top of the outer loop: the block starts a run
    when neither of them skips it. *)
Definition qualifies (any_ : bool) (vtype : option text) : bool :=
  match vtype with
  | None => false
  | Some v =>
      match v with
      | [] => false
      | _ :: _ =>
          if negb (startswith (lit "VMT_") (upper v)) then false
          else if negb any_ && negb (in_targets (upper v)) then false
          else true
      end
  end.

(** The test of the inner loop on the candidate block [items[j]]. *)
Definition continues (t : text) (vt : text) (group_end : nat) (it : item)
    : bool :=
  match i_vtype it with
  | None => false
  | Some v2 =>
      match v2 with
      | [] => false
      | _ :: _ =>
          text_eqb (upper (strip v2)) vt &&
          fullmatch_ws (slice t group_end (i_start it))
      end
  end.

(** The inner [while j < len(items)] loop, from [items[j:]]: the final
    [group_end] and the blocks left over, [items[j':]]. *)
Fixpoint extend (t : text) (vt : text) (group_end : nat) (items : list item)
    : nat * list item :=
  match items with
  | [] => (group_end, [])
  | it :: items' =>
      if continues t vt group_end it
      then extend t vt (i_end it) items'
      else (group_end, items)
  end.

(** The outer [while i < len(items)] loop, from [items[i:]].  Each round
    moves [i] forward by at least one, so [len(items)] rounds are enough. *)
Fixpoint group_from (fuel : nat) (any_ : bool) (t : text) (items : list item)
    : list group :=
  match fuel with
  | 0 => []
  | S fuel' =>
      match items with
      | [] => []
      | it :: items' =>
          if qualifies any_ (i_vtype it) then
            let vt := upper (match i_vtype it with Some v => v | None => [] end) in
            let (group_end, items'') := extend t vt (i_end it) items' in
            Group (i_start it) group_end (i_indent it) vt ::
            group_from fuel' any_ t items''
          else group_from fuel' any_ t items'
      end
  end.

Definition group_runs (any_ : bool) (t : text) (items : list item)
    : list group :=
  group_from (length items) any_ t items.

(** The replacement loop of [main], with [pos] as an argument. *)
Fixpoint splice_from (t : text) (pos0 : nat) (groups : list group) : text :=
  match groups with
  | [] => slice_from t pos0
  | g :: groups' =>
      slice t pos0 (g_start g) ++
      build_items (g_indent g) (g_vt g) ++
      splice_from t (g_end g) groups'
  end.

Definition splice (t : text) (groups : list group) : text :=
  splice_from t 0 groups.

(** What one round of the file loop determines: nothing to do, or the new
    text with the number of runs replaced. *)
Inductive outcome : Type :=
| NoItems
| NoMatching
| Replaced (new_text : text) (runs : nat).

Definition normalize (any_ : bool) (t : text) : outcome :=
  match scan_items t with
  | [] => NoItems
  | items =>
      match group_runs any_ t items with
      | [] => NoMatching
      | groups => Replaced (splice t groups) (length groups)
      end
  end.

(** The text the file holds after the round. *)
Definition output (any_ : bool) (t : text) : text :=
  match normalize any_ t with
  | Replaced new_text _ => new_text
  | _ => t
  end.

(** ** Notions used to state the properties *)

(** The character before offset [n] of [t]. *)
Definition prev_at (t : text) (n : nat) : option ascii :=
  match n with
  | 0 => None
  | S m => nth_error t m
  end.

(** The last character of [w], or [d] when [w] is empty. *)
Definition last_or (d : option ascii) (w : text) : option ascii :=
  fold_left (fun _ x => Some x) w d.

(** The cursor [k] characters further on. *)
Definition advance (c : cursor) (k : nat) : cursor :=
  Cur (pos c + k) (last_or (prev c) (firstn k (rest c))) (skipn k (rest c))
      (caps c).

(** The cursor at offset [n] of subject [t]. *)
Definition cursor_at (t : text) (n : nat) : cursor :=
  Cur n (prev_at t n) (skipn n t) [].

(** [c'] lies [length w] characters after [c] in the same subject. *)
Definition reaches (c c' : cursor) : Prop :=
  exists w, rest c = w ++ rest c' /\ pos c' = pos c + length w /\
            prev c' = last_or (prev c) w.

(** The least number of characters a match of [r] takes. *)
Fixpoint min_len (r : regex) : nat :=
  match r with
  | Chr _ => 1
  | Seq a b => min_len a + min_len b
  | Grp _ a => min_len a
  | _ => 0
  end.

(** [pattern.match(t, n)]: an attempt at offset [n] of subject [t]. *)
Definition match_pos (r : regex) (t : text) (n : nat) : option cursor :=
  match_at r n (prev_at t n) (skipn n t).

Fixpoint takewhile (p : ascii -> bool) (l : text) : text :=
  match l with
  | x :: l' => if p x then x :: takewhile p l' else []
  | [] => []
  end.

(** [l] begins with the literal [s], letter case aside. *)
Fixpoint starts_ci (s l : text) : bool :=
  match s, l with
  | [], _ => true
  | a :: s', x :: l' => ci a x && starts_ci s' l'
  | _ :: _, [] => false
  end.

(** The offset of the first place in [l] where the literal [s] begins,
    letter case aside. *)
Fixpoint find_ci (s l : text) : option nat :=
  if starts_ci s l then Some 0
  else match l with
       | [] => None
       | _ :: l' => option_map S (find_ci s l')
       end.

(** Matches in ascending order between [lo] and [hi], none empty, none
    overlapping the next. *)
Fixpoint ordered_matches (lo hi : nat) (ms : list rmatch) : Prop :=
  match ms with
  | [] => True
  | m :: ms' =>
      lo <= m_start m /\ m_start m < m_end m /\ m_end m <= hi /\
      ordered_matches (m_end m) hi ms'
  end.

(** ** The grouping loops, as a relation *)

(** The candidate block has the run's type, trimmed and upper-cased. *)
Definition same_type (vt : text) (it : item) : Prop :=
  exists v2, i_vtype it = Some v2 /\ upper (strip v2) = vt.

(** Only whitespace lies between the end of the run so far and the
    candidate block. *)
Definition blank_gap (t : text) (group_end : nat) (it : item) : Prop :=
  Forall (fun c => is_space c = true) (slice t group_end (i_start it)).

(** [run_members t vt e0 taken e]: the blocks [taken] extend, one after the
    other, a run of type [vt] that ended at [e0], and leave it ending at
    [e]. *)
Inductive run_members (t vt : text) : nat -> list item -> nat -> Prop :=
| members_nil : forall e0, run_members t vt e0 [] e0
| members_cons : forall e0 it taken e,
    same_type vt it ->
    blank_gap t e0 it ->
    run_members t vt (i_end it) taken e ->
    run_members t vt e0 (it :: taken) e.

(** The run cannot go on into [rest']: no block is left, or the next one
    has another type or is separated by more than whitespace. *)
Definition run_stops (t vt : text) (e : nat) (rest' : list item) : Prop :=
  match rest' with
  | [] => True
  | it :: _ => ~ (same_type vt it /\ blank_gap t e it)
  end.

(** [grouped any_ t items groups]: the runs of the blocks [items]. *)
Inductive grouped (any_ : bool) (t : text) : list item -> list group -> Prop :=
| grouped_nil : grouped any_ t [] []
| grouped_skip : forall it items groups,
    qualifies any_ (i_vtype it) = false ->
    grouped any_ t items groups ->
    grouped any_ t (it :: items) groups
| grouped_run : forall it v taken rest' e groups,
    i_vtype it = Some v ->
    qualifies any_ (Some v) = true ->
    run_members t (upper v) (i_end it) taken e ->
    run_stops t (upper v) e rest' ->
    grouped any_ t rest' groups ->
    grouped any_ t (it :: taken ++ rest')
      (Group (i_start it) e (i_indent it) (upper v) :: groups).

(** Blocks in ascending order between [lo] and [hi], none empty, none
    overlapping the next. *)
Fixpoint ordered_items (lo hi : nat) (items : list item) : Prop :=
  match items with
  | [] => True
  | it :: items' =>
      lo <= i_start it /\ i_start it < i_end it /\ i_end it <= hi /\
      ordered_items (i_end it) hi items'
  end.

(** Runs in ascending order between [lo] and [hi], none empty, none
    overlapping the next. *)
Fixpoint ordered_groups (lo hi : nat) (groups : list group) : Prop :=
  match groups with
  | [] => True
  | g :: groups' =>
      lo <= g_start g /\ g_start g < g_end g /\ g_end g <= hi /\
      ordered_groups (g_end g) hi groups'
  end.

(** [subseq l1 l2]: [l1] is [l2] with some elements left out. *)
Inductive subseq {A : Type} : list A -> list A -> Prop :=
| subseq_nil : subseq [] []
| subseq_skip : forall x l1 l2, subseq l1 l2 -> subseq l1 (x :: l2)
| subseq_take : forall x l1 l2, subseq l1 l2 -> subseq (x :: l1) (x :: l2).

(** ** What [ITEM_RE] matches *)

(** The match of [ITEM_RE] at a cursor, computed directly, stage by stage
    from the end of the expression: the first closing tag, the [>] of the
    opening tag, its attributes after a word boundary, the tag name, and
    the line start with its run of spaces and tabs. *)
Definition item_close (c : cursor) : option cursor :=
  match find_ci (lit "</Item>") (rest c) with
  | Some j => Some (advance (set_cap 2 (pos c, pos c + j) (advance c j)) 7)
  | None => None
  end.

Definition item_gt (c : cursor) : option cursor :=
  if starts_ci (lit ">") (rest c) then item_close (advance c 1) else None.

Definition item_attrs (c : cursor) : option cursor :=
  if at_wordb c
  then item_gt (advance c (length (takewhile (not_char ">"%char) (rest c))))
  else None.

Definition item_tag (c : cursor) : option cursor :=
  if starts_ci (lit "<Item") (rest c) then item_attrs (advance c 5) else None.

Definition item_at (c : cursor) : option cursor :=
  if at_bol c then
    let nb := length (takewhile is_blank (rest c)) in
    item_tag (set_cap 1 (pos c, pos c + nb) (advance c nb))
  else None.

(** [w] is the literal [s], letter case aside. *)
Definition ci_text (s w : text) : Prop :=
  length w = length s /\ starts_ci s w = true.

(** Offset [s] of [t] is the start of the text or follows a line feed. *)
Definition line_start (t : text) (s : nat) : Prop :=
  prev_at t s = None \/ prev_at t s = Some "010"%char.

(** [item_elem t s e indent]: from offset [s], at the start of a line, to
    offset [e], the text [t] holds [indent] (spaces and tabs only), an
    opening tag [<Item ...>] and, after any text, a closing tag
    [</Item>]. *)
Definition item_elem (t : text) (s e : nat) (indent : text) : Prop :=
  line_start t s /\
  exists tag attrs inner close,
    skipn s t = indent ++ tag ++ attrs ++ lit ">" ++ inner ++ close ++ skipn e t /\
    e = s + length (indent ++ tag ++ attrs ++ lit ">" ++ inner ++ close) /\
    Forall (fun x => is_blank x = true) indent /\
    ci_text (lit "<Item") tag /\
    Forall (fun x => x <> ">"%char) attrs /\
    match attrs with [] => True | x :: _ => is_word x = false end /\
    ci_text (lit "</Item>") close.

(** ** Notions for the splice *)

(** Offset [i] of the text lies in none of the replaced spans. *)
Definition outside (groups : list group) (i : nat) : Prop :=
  forall g, In g groups -> ~ (g_start g <= i /\ i < g_end g).

(** The offset, in [splice_from t p groups], of the character that the
    text has at offset [i], for [i] at or after [p] and outside the
    spans: everything kept before it plus every replacement before it. *)
Fixpoint out_pos_from (p : nat) (groups : list group) (i : nat) : nat :=
  match groups with
  | [] => i - p
  | g :: groups' =>
      if i <? g_start g then i - p
      else (g_start g - p) + length (build_items (g_indent g) (g_vt g)) +
           out_pos_from (g_end g) groups' i
  end.

Definition out_pos (groups : list group) (i : nat) : nat :=
  out_pos_from 0 groups i.

(** The replacement loop stopped at offset [s], before the run that starts
    there: what it has appended so far, from [pos0]. *)
Fixpoint splice_upto (t : text) (pos0 : nat) (groups : list group) (s : nat)
    : text :=
  match groups with
  | [] => slice t pos0 s
  | g :: groups' =>
      slice t pos0 (g_start g) ++
      build_items (g_indent g) (g_vt g) ++
      splice_upto t (g_end g) groups' s
  end.

(** Where the kept text after a run stops: the start of the next run, or
    the end of the text. *)
Definition next_start (t : text) (groups : list group) : nat :=
  match groups with
  | [] => length t
  | g :: _ => g_start g
  end.

(** ** The rendering, line by line *)

(** The seven lines of one rendered block, without indentation and line
    ends; [val] is the modifier value as written. *)
Definition block_lines (vtype val : text) : list text :=
  [ lit "<Item>";
    lit "  <identifier />";
    lit "  <modifier value=" ++ dq ++ val ++ dq ++ lit " />";
    lit "  <audioApply value=" ++ dq ++ lit "1.000000" ++ dq ++ lit " />";
    lit "  <weight value=" ++ dq ++ lit "0" ++ dq ++ lit " />";
    lit "  <type>" ++ vtype ++ lit "</type>";
    lit "</Item>" ].

(** A list of lines as text: each line after the indentation and ended by a
    line feed. *)
Definition indented (indent : text) (lines : list text) : text :=
  concat (map (fun ln => indent ++ ln ++ nl) lines).

(** ** Sample inputs *)

(** A short item block of the given type, with its line end. *)
Definition sample_block (indent vtype : text) : text :=
  indent ++ lit "<Item>" ++ nl ++
  indent ++ lit "  <type>" ++ vtype ++ lit "</type>" ++ nl ++
  indent ++ lit "</Item>" ++ nl.

Definition engine_block : text := sample_block (lit "  ") (lit "VMT_ENGINE").

(** Two engine blocks, a blank line, three more engine blocks. *)
Definition scenario_B : text :=
  engine_block ++ engine_block ++ nl ++
  engine_block ++ engine_block ++ engine_block.

(** Two engine blocks, a comment line, three more engine blocks. *)
Definition scenario_C : text :=
  engine_block ++ engine_block ++ lit "  <!-- tuned -->" ++ nl ++
  engine_block ++ engine_block ++ engine_block.

(** A block whose type is written in mixed case, between two other lines. *)
Definition mixed_case_text : text :=
  lit "<Kits>" ++ nl ++
  sample_block (lit "  ") (lit " vmt_Brakes ") ++
  lit "</Kits>" ++ nl.



(** ** Notions for scanning a known text *)

(** No occurrence of the literal [s], letter case aside, begins within [w]
    in the text [w ++ l]. *)
Fixpoint no_start (s w l : text) : Prop :=
  match w with
  | [] => True
  | x :: w' => starts_ci s (x :: w' ++ l) = false /\ no_start s w' l
  end.

(** The type that [scan_items] reads in the inner text of a block. *)
Definition item_type (inner : text) : option text :=
  match search TYPE_RE inner with
  | Some tm => Some (strip (m_group inner tm 1))
  | None => None
  end.

(** The text between the tags of a rendered block. *)
Definition block_inner (indent vtype : text) (val : nat) : text :=
  nl ++
  indent ++ lit "  <identifier />" ++ nl ++
  indent ++ lit "  <modifier value=" ++ dq ++ str_nat val ++ dq ++ lit " />" ++ nl ++
  indent ++ lit "  <audioApply value=" ++ dq ++ lit "1.000000" ++ dq ++ lit " />" ++ nl ++
  indent ++ lit "  <weight value=" ++ dq ++ lit "0" ++ dq ++ lit " />" ++ nl ++
  indent ++ lit "  <type>" ++ vtype ++ lit "</type>" ++ nl ++
  indent.

(** The part of [block_inner] before the opening type tag. *)
Definition block_pre (indent : text) (val : nat) : text :=
  nl ++
  indent ++ lit "  <identifier />" ++ nl ++
  indent ++ lit "  <modifier value=" ++ dq ++ str_nat val ++ dq ++ lit " />" ++ nl ++
  indent ++ lit "  <audioApply value=" ++ dq ++ lit "1.000000" ++ dq ++ lit " />" ++ nl ++
  indent ++ lit "  <weight value=" ++ dq ++ lit "0" ++ dq ++ lit " />" ++ nl ++
  indent ++ lit "  ".

(** A rendered block without its last line feed. *)
Definition block_body (indent vtype : text) (val : nat) : text :=
  indent ++ lit "<Item>" ++ block_inner indent vtype val ++ lit "</Item>".

(** The scanned blocks of rendered blocks that begin at offset [n]. *)
Fixpoint block_items (indent vtype : text) (n : nat) (vals : list nat)
    : list item :=
  match vals with
  | [] => []
  | val :: vals' =>
      Item n (n + length (block_body indent vtype val)) indent (Some vtype) ::
      block_items indent vtype
        (S (n + length (block_body indent vtype val))) vals'
  end.

(** ** Notions for the further properties *)

(** An item element inside another one. *)
Definition nested_text : text :=
  lit "<Item><Item><type>VMT_ENGINE</type></Item></Item>" ++ nl.

(** The block lies within the span of the run. *)
Definition inside (g : group) (it : item) : Prop :=
  g_start g <= i_start it /\ i_end it <= g_end g.

(** The block and the span of the run do not meet. *)
Definition apart (g : group) (it : item) : Prop :=
  i_end it <= g_start g \/ g_end g <= i_start it.

(** An item block without a type between two engine blocks. *)
Definition untyped_text : text :=
  engine_block ++
  lit "  <Item>" ++ nl ++ lit "    <weight value=" ++ dq ++ lit "0" ++ dq ++
  lit " />" ++ nl ++ lit "  </Item>" ++ nl ++
  engine_block.

(** ** [_human_size] *)

(** The argument is a size in bytes, a non-negative integer; the loop
    divides it by 1024 as a float.  Below 2^53 every such quotient is a
    float exactly, so the value after [k] divisions is the rational
    [n / 1024^k], kept here as [n] and [k]. *)

Definition units : list text :=
  [lit "B"; lit "KB"; lit "MB"; lit "GB"; lit "TB"].

(** The decimal digits of a number. *)
Definition str_N (n : N) : text := lit (NilZero.string_of_uint (N.to_uint n)).

(** The value [n / 1024^k] in tenths, rounded to the nearest, a tie to the
    even one, as the format [.1f] rounds a float. *)
Definition tenths (n : N) (k : nat) : N :=
  let den := (1024 ^ N.of_nat k)%N in
  let q := (10 * n / den)%N in
  let r := ((10 * n) mod den)%N in
  if (2 * r <? den)%N then q
  else if (den <? 2 * r)%N then (q + 1)%N
  else if N.even q then q else (q + 1)%N.

(** The format [.1f] of [n / 1024^k]. *)
Definition fmt1 (n : N) (k : nat) : text :=
  str_N (tenths n k / 10) ++ lit "." ++ str_N (tenths n k mod 10).

(** The loop over the units, entered with the value [n / 1024^k]. *)
Fixpoint human_size_from (us : list text) (n : N) (k : nat) : text :=
  match us with
  | [] => fmt1 n k ++ lit " PB"
  | unit :: us' =>
      if (n <? 1024 * 1024 ^ N.of_nat k)%N
      then fmt1 n k ++ lit " " ++ unit
      else human_size_from us' n (S k)
  end.

Definition _human_size (n : N) : text := human_size_from units n 0.

(** ** The file loop of [main] and [clean_backups] *)

(** Paths are texts, and the files under the root folder are a list of
    paths with their contents; a path is looked up from the front. *)
Definition path := text.
Definition files := list (path * text).

Fixpoint read_text (fs : files) (p : path) : option text :=
  match fs with
  | [] => None
  | (q, t) :: fs' => if text_eqb q p then Some t else read_text fs' p
  end.

(** [p.write_text(t)], and the target of [shutil.copy2]: the file is
    created or replaced. *)
Definition write_text (fs : files) (p : path) (t : text) : files :=
  (p, t) :: filter (fun e => negb (text_eqb (fst e) p)) fs.


(** [meta.with_suffix(meta.suffix + ".bak")]: the name with [.bak] after
    it. *)
Definition bak_path (meta : path) : path := meta ++ lit ".bak".

(** The state of the loop: the files, the counter [updated] and the lines
    printed so far. *)
Record run_state : Type := RunState {
  st_files : files;
  st_updated : nat;
  st_out : list text
}.

(** One round of [for meta in root.rglob(args.name)]; [None] when the file
    cannot be read, which ends the program with an error. *)
Definition process_file (any_ dry_run : bool) (st : run_state) (meta : path)
    : option run_state :=
  match read_text (st_files st) meta with
  | None => None
  | Some t =>
      Some
        match normalize any_ t with
        | NoItems =>
            RunState (st_files st) (st_updated st)
              (st_out st ++ [lit "No <Item> blocks in " ++ meta])
        | NoMatching =>
            RunState (st_files st) (st_updated st)
              (st_out st ++ [lit "No matching VMT items in " ++ meta])
        | Replaced new_text runs =>
            if dry_run then
              RunState (st_files st) (st_updated st)
                (st_out st ++
                 [lit "[DRY] " ++ meta ++ lit "  -> would replace " ++
                  str_nat runs ++ lit " run(s)"])
            else
              RunState
                (write_text (write_text (st_files st) (bak_path meta) t)
                            meta new_text)
                (S (st_updated st))
                (st_out st ++
                 [lit "Updated " ++ meta ++ lit "  (replaced " ++
                  str_nat runs ++ lit " run(s))"])
        end
  end.

Fixpoint process_files (any_ dry_run : bool) (st : run_state)
    (metas : list path) : option run_state :=
  match metas with
  | [] => Some st
  | meta :: metas' =>
      match process_file any_ dry_run st meta with
      | None => None
      | Some st' => process_files any_ dry_run st' metas'
      end
  end.

(** [main] without [--clean-backups], on the files [metas] that [rglob]
    yields. *)
Definition main_loop (any_ dry_run : bool) (fs : files) (metas : list path)
    : option run_state :=
  match process_files any_ dry_run (RunState fs 0 []) metas with
  | None => None
  | Some st =>
      Some (RunState (st_files st) (st_updated st)
              (st_out st ++
               [nl ++ lit "Done. Files updated: " ++ str_nat (st_updated st)]))
  end.





(** * Properties *)

(** ** Text *)

Lemma text_eqb_eq (a b : text) : text_eqb a b = true <-> a = b.
Proof.
  revert b; induction a as [|x a IH]; intros [|y b]; simpl;
    try (split; [discriminate | congruence]); try tauto.
  rewrite andb_true_iff, Ascii.eqb_eq, IH.
  split; [intros [-> ->]; reflexivity | intros H; injection H; auto].
Qed.

Lemma text_eqb_refl (a : text) : text_eqb a a = true.
Proof. apply text_eqb_eq; reflexivity. Qed.

Lemma slice_nil (t : text) (a b : nat) : b <= a -> slice t a b = [].
Proof. intros H; unfold slice; replace (b - a) with 0 by lia; reflexivity. Qed.

Lemma slice_length (t : text) (a b : nat) :
  a <= b -> b <= length t -> length (slice t a b) = b - a.
Proof.
  intros Hab Hb; unfold slice.
  rewrite length_firstn, length_skipn; lia.
Qed.

Lemma slice_split (t : text) (a b : nat) :
  a <= b -> skipn a t = slice t a b ++ skipn b t.
Proof.
  intros Hab; unfold slice.
  replace b with ((b - a) + a) at 2 by lia.
  rewrite <- skipn_skipn.
  symmetry; apply firstn_skipn.
Qed.

Lemma slice_app_skip (w l : text) (k : nat) :
  slice (w ++ l) (length w) (length w + k) = firstn k l.
Proof.
  unfold slice.
  replace (length w + k - length w) with k by lia.
  rewrite skipn_app, skipn_all, Nat.sub_diag; reflexivity.
Qed.

Lemma last_or_app (d : option ascii) (w1 w2 : text) :
  last_or d (w1 ++ w2) = last_or (last_or d w1) w2.
Proof. unfold last_or; apply fold_left_app. Qed.

Lemma last_or_snoc (d : option ascii) (w : text) (x : ascii) :
  last_or d (w ++ [x]) = Some x.
Proof. rewrite last_or_app; reflexivity. Qed.

Lemma prev_at_skipn (t : text) (n : nat) (x : ascii) (l : text) :
  skipn n t = x :: l -> prev_at t (S n) = Some x.
Proof.
  intros H; simpl.
  rewrite <- (firstn_skipn n t), H.
  assert (Hn : n <= length t).
  { destruct (le_lt_dec n (length t)) as [|Hlt]; [assumption|].
    rewrite skipn_all2 in H by lia; discriminate. }
  rewrite nth_error_app2; rewrite length_firstn, Nat.min_l by assumption;
    [rewrite Nat.sub_diag; reflexivity | lia].
Qed.

Lemma skipn_S_cons (t : text) (n : nat) (x : ascii) (l : text) :
  skipn n t = x :: l -> skipn (S n) t = l.
Proof.
  intros H. replace (S n) with (1 + n) by lia.
  rewrite <- skipn_skipn, H; reflexivity.
Qed.

Lemma skipn_cons_lt (t : text) (n : nat) (x : ascii) (l : text) :
  skipn n t = x :: l -> n < length t.
Proof.
  intros H. destruct (le_lt_dec (length t) n) as [Hle|]; [|assumption].
  rewrite skipn_all2 in H by assumption; discriminate.
Qed.

(** Walking [w] from offset [n] ends at the cursor of offset [n + length w]. *)
Lemma prev_at_walk (t : text) (n : nat) (w l : text) :
  skipn n t = w ++ l ->
  prev_at t (n + length w) = last_or (prev_at t n) w /\
  skipn (n + length w) t = l.
Proof.
  revert n; induction w as [|x w IH]; intros n H; simpl in *.
  - rewrite Nat.add_0_r; auto.
  - replace (n + S (length w)) with (S n + length w) by lia.
    destruct (IH (S n)) as [IH1 IH2].
    + apply (skipn_S_cons _ _ _ _ H).
    + split; [|assumption].
      rewrite IH1. f_equal. apply (prev_at_skipn _ _ _ _ H).
Qed.

(** ** The matcher only moves forward *)

Lemma reaches_refl (c : cursor) : reaches c c.
Proof. exists []; simpl; repeat split; lia. Qed.

Lemma reaches_trans (a b c : cursor) : reaches a b -> reaches b c -> reaches a c.
Proof.
  intros (w1 & R1 & P1 & V1) (w2 & R2 & P2 & V2).
  exists (w1 ++ w2). rewrite length_app, last_or_app, <- app_assoc.
  repeat split; [congruence | lia | congruence].
Qed.

Lemma reaches_step (n : nat) (pv : option ascii) (x : ascii) (l : text)
    (cs cs' : list (nat * (nat * nat))) :
  reaches (Cur n pv (x :: l) cs) (Cur (S n) (Some x) l cs').
Proof. exists [x]; simpl; repeat split; lia. Qed.

Lemma reaches_caps (c c' : cursor) (cs : list (nat * (nat * nat))) :
  reaches c c' -> reaches c (Cur (pos c') (prev c') (rest c') cs).
Proof. intros (w & H); exists w; exact H. Qed.

Lemma reaches_pos (c c' : cursor) : reaches c c' -> pos c <= pos c'.
Proof. intros (w & _ & H & _); lia. Qed.

Lemma rep_greedy_reaches (p : ascii -> bool) (k : kont) (l : text) :
  forall n pv cs x,
    rep_greedy p k n pv cs l = Some x ->
    exists c', reaches (Cur n pv l cs) c' /\ k c' = Some x.
Proof.
  induction l as [|a l IH]; intros n pv cs x H; simpl in H.
  - eexists; split; [apply reaches_refl | exact H].
  - destruct (p a).
    + destruct (rep_greedy p k (S n) (Some a) cs l) eqn:E.
      * injection H as <-. destruct (IH _ _ _ _ E) as (c' & R & K).
        exists c'; split; [|exact K].
        eapply reaches_trans; [apply reaches_step | exact R].
      * eexists; split; [apply reaches_refl | exact H].
    + eexists; split; [apply reaches_refl | exact H].
Qed.

Lemma rep_lazy_reaches (p : ascii -> bool) (k : kont) (l : text) :
  forall n pv cs x,
    rep_lazy p k n pv cs l = Some x ->
    exists c', reaches (Cur n pv l cs) c' /\ k c' = Some x.
Proof.
  induction l as [|a l IH]; intros n pv cs x H; simpl in H.
  - destruct (k (Cur n pv [] cs)) eqn:E; [|discriminate].
    injection H as <-. eexists; split; [apply reaches_refl | exact E].
  - destruct (k (Cur n pv (a :: l) cs)) eqn:E.
    + injection H as <-. eexists; split; [apply reaches_refl | exact E].
    + destruct (p a); [|discriminate].
      destruct (IH _ _ _ _ H) as (c' & R & K).
      exists c'; split; [|exact K].
      eapply reaches_trans; [apply reaches_step | exact R].
Qed.

(** Whatever [run r k] returns, the continuation returned it, at a cursor at
    least [min_len r] characters further. *)
Lemma run_reaches (r : regex) :
  forall k c x,
    run r k c = Some x ->
    exists c', reaches c c' /\ pos c + min_len r <= pos c' /\ k c' = Some x.
Proof.
  induction r as [|p| | |g p|a IHa b IHb|n a IHa]; intros k c x H; simpl in H.
  - exists c; repeat split; [apply reaches_refl | simpl; lia | exact H].
  - destruct c as [n pv l cs]; simpl in *.
    destruct l as [|a l]; [discriminate|].
    destruct (p a); [|discriminate].
    eexists; repeat split; [apply reaches_step | simpl; lia | exact H].
  - destruct (at_bol c); [|discriminate].
    exists c; repeat split; [apply reaches_refl | simpl; lia | exact H].
  - destruct (at_wordb c); [|discriminate].
    exists c; repeat split; [apply reaches_refl | simpl; lia | exact H].
  - destruct c as [n pv l cs]; simpl in *.
    destruct g.
    + destruct (rep_greedy_reaches _ _ _ _ _ _ _ H) as (c' & R & K).
      exists c'; repeat split; [exact R | | exact K].
      apply reaches_pos in R; simpl in *; lia.
    + destruct (rep_lazy_reaches _ _ _ _ _ _ _ H) as (c' & R & K).
      exists c'; repeat split; [exact R | | exact K].
      apply reaches_pos in R; simpl in *; lia.
  - destruct (IHa _ _ _ H) as (c1 & R1 & P1 & K1).
    destruct (IHb _ _ _ K1) as (c2 & R2 & P2 & K2).
    exists c2; repeat split; [eapply reaches_trans; eassumption | simpl; lia | exact K2].
  - destruct (IHa _ _ _ H) as (c1 & R1 & P1 & K1).
    exists (set_cap n (pos c, pos c1) c1); repeat split;
      [apply (reaches_caps _ _ _ R1) | simpl; lia | exact K1].
Qed.

Lemma match_at_reaches (r : regex) (n : nat) (pv : option ascii) (l : text)
    (c' : cursor) :
  match_at r n pv l = Some c' ->
  reaches (Cur n pv l []) c' /\ n + min_len r <= pos c'.
Proof.
  intros H. destruct (run_reaches _ _ _ _ H) as (c1 & R & P & K).
  injection K as ->. auto.
Qed.

Lemma search_from_spec (r : regex) (l : text) :
  forall n pv s c',
    search_from r n pv l = Some (s, c') ->
    exists w l1, l = w ++ l1 /\ s = n + length w /\
      match_at r s (last_or pv w) l1 = Some c'.
Proof.
  induction l as [|x l IH]; intros n pv s c' H; simpl in H.
  - destruct (match_at r n pv []) eqn:E; [|discriminate].
    injection H as <- <-. exists [], []; simpl; rewrite Nat.add_0_r; auto.
  - destruct (match_at r n pv (x :: l)) eqn:E.
    + injection H as <- <-. exists [], (x :: l); simpl; rewrite Nat.add_0_r; auto.
    + destruct (IH _ _ _ _ H) as (w & l1 & -> & -> & M).
      exists (x :: w), l1; simpl; repeat split; [lia | exact M].
Qed.

(** A search that fails found no match at any offset it passed. *)
Lemma search_from_none (r : regex) (l : text) :
  forall n pv,
    search_from r n pv l = None ->
    forall w l1, l = w ++ l1 -> match_at r (n + length w) (last_or pv w) l1 = None.
Proof.
  induction l as [|x l IH]; intros n pv H w l1 E; simpl in H.
  - destruct w; [|discriminate]. simpl in E; subst l1; simpl.
    rewrite Nat.add_0_r. destruct (match_at r n pv []); [discriminate | reflexivity].
  - destruct (match_at r n pv (x :: l)) eqn:M; [discriminate|].
    destruct w as [|y w]; simpl in E.
    + subst l1; simpl; rewrite Nat.add_0_r; exact M.
    + injection E as <- ->. simpl.
      replace (n + S (length w)) with (S n + length w) by lia.
      apply (IH _ _ H); reflexivity.
Qed.

(** The match a search returns is the leftmost one. *)
Lemma search_from_leftmost (r : regex) (l : text) :
  forall n pv s c',
    search_from r n pv l = Some (s, c') ->
    forall w l1, l = w ++ l1 -> n + length w < s ->
      match_at r (n + length w) (last_or pv w) l1 = None.
Proof.
  induction l as [|x l IH]; intros n pv s c' H w l1 E Hlt; simpl in H.
  - destruct (match_at r n pv []) eqn:M; [|discriminate].
    injection H as <- <-. lia.
  - destruct (match_at r n pv (x :: l)) eqn:M.
    + injection H as <- <-. lia.
    + destruct w as [|y w]; simpl in E.
      * subst l1; simpl; rewrite Nat.add_0_r; exact M.
      * injection E as <- ->. simpl.
        replace (n + S (length w)) with (S n + length w) by lia.
        apply (IH _ _ _ _ H); [reflexivity | simpl in Hlt; lia].
Qed.

(** ** [finditer] *)

Lemma reaches_synced (t : text) (n : nat) (c' : cursor) :
  n <= length t ->
  reaches (cursor_at t n) c' ->
  pos c' <= length t /\ rest c' = skipn (pos c') t /\
  prev c' = prev_at t (pos c').
Proof.
  intros Hn (w & R & P & V); simpl in *.
  destruct (prev_at_walk _ _ _ _ R) as [W1 W2].
  assert (L : length (skipn n t) = length w + length (rest c'))
    by (rewrite R, length_app; reflexivity).
  rewrite length_skipn in L.
  rewrite P; repeat split; [lia | congruence | congruence].
Qed.

Lemma match_pos_reaches (r : regex) (t : text) (n : nat) (c' : cursor) :
  n <= length t ->
  match_pos r t n = Some c' ->
  n + min_len r <= pos c' /\ pos c' <= length t /\
  rest c' = skipn (pos c') t /\ prev c' = prev_at t (pos c').
Proof.
  intros Hn H. destruct (match_at_reaches _ _ _ _ _ H) as [R P].
  split; [exact P|]. apply (reaches_synced t n c' Hn R).
Qed.

(** What [finditer] returns from offset [n] on: the matches are in order and
    disjoint, each is the match the expression has at its start, and every
    offset where the expression matches is covered by one of them. *)
Lemma finditer_from_spec (r : regex) (t : text) :
  1 <= min_len r ->
  forall fuel n,
    n <= length t -> length t - n < fuel ->
    let ms := finditer_from fuel r n (prev_at t n) (skipn n t) in
    ordered_matches n (length t) ms /\
    (forall m, In m ms ->
       exists c', match_pos r t (m_start m) = Some c' /\
                  pos c' = m_end m /\ caps c' = m_caps m) /\
    (forall s, n <= s <= length t -> match_pos r t s <> None ->
       exists m, In m ms /\ m_start m <= s < m_end m).
Proof.
  intros Hr fuel; induction fuel as [|fuel IH]; intros n Hn Hf; [lia|].
  simpl.
  destruct (search_from r n (prev_at t n) (skipn n t)) as [[s0 c']|] eqn:E.
  - destruct (search_from_spec _ _ _ _ _ _ E) as (w & l1 & Hl & -> & M).
    destruct (prev_at_walk _ _ _ _ Hl) as [W1 W2].
    assert (Hs0 : n + length w <= length t).
    { assert (L : length (skipn n t) = length w + length l1)
        by (rewrite Hl, length_app; reflexivity).
      rewrite length_skipn in L; lia. }
    assert (MP : match_pos r t (n + length w) = Some c')
      by (unfold match_pos; rewrite W1, W2; exact M).
    destruct (match_pos_reaches _ _ _ _ Hs0 MP) as (P1 & P2 & P3 & P4).
    replace (pos c' =? n + length w) with false
      by (symmetry; apply Nat.eqb_neq; lia).
    rewrite P3, P4.
    destruct (IH (pos c') P2 ltac:(lia)) as (O & S1 & C1).
    repeat split; simpl.
    + lia.
    + lia.
    + exact P2.
    + exact O.
    + intros m [<-|Hin]; simpl; [eauto | apply S1; exact Hin].
    + intros s Hs Hm.
      destruct (lt_dec s (n + length w)) as [Hlt|Hge].
      * exfalso; apply Hm.
        assert (Hsl : skipn n t = slice t n s ++ skipn s t)
          by (apply slice_split; lia).
        assert (Hlen : length (slice t n s) = s - n)
          by (apply slice_length; lia).
        pose proof (search_from_leftmost _ _ _ _ _ _ E _ _ Hsl) as Hnone.
        destruct (prev_at_walk _ _ _ _ Hsl) as [V1 _].
        rewrite Hlen in Hnone, V1.
        replace (n + (s - n)) with s in * by lia.
        unfold match_pos; rewrite V1; apply Hnone; lia.
      * destruct (lt_dec s (pos c')) as [Hin|Hout].
        -- eexists; split; [left; reflexivity | simpl; lia].
        -- destruct (C1 s ltac:(lia) Hm) as (m & Hi & Hc).
           exists m; split; [right; exact Hi | exact Hc].
  - repeat split; simpl; try tauto.
    intros s Hs Hm. exfalso; apply Hm.
    assert (Hsl : skipn n t = slice t n s ++ skipn s t)
      by (apply slice_split; lia).
    assert (Hlen : length (slice t n s) = s - n)
      by (apply slice_length; lia).
    pose proof (search_from_none _ _ _ _ E _ _ Hsl) as Hnone.
    destruct (prev_at_walk _ _ _ _ Hsl) as [V1 _].
    rewrite Hlen in Hnone, V1.
    replace (n + (s - n)) with s in * by lia.
    unfold match_pos; rewrite V1; exact Hnone.
Qed.

Lemma finditer_spec (r : regex) (t : text) :
  1 <= min_len r ->
  ordered_matches 0 (length t) (finditer r t) /\
  (forall m, In m (finditer r t) ->
     exists c', match_pos r t (m_start m) = Some c' /\
                pos c' = m_end m /\ caps c' = m_caps m) /\
  (forall s, s <= length t -> match_pos r t s <> None ->
     exists m, In m (finditer r t) /\ m_start m <= s < m_end m).
Proof.
  intros Hr.
  destruct (finditer_from_spec r t Hr (S (length t)) 0 ltac:(lia) ltac:(lia))
    as (O & S1 & C1).
  unfold finditer; simpl in *.
  repeat split; [exact O | exact S1 |].
  intros s Hs; apply C1; lia.
Qed.

(** ** The grouping loops *)

Lemma fullmatch_ws_greedy (l : text) :
  forall n pv cs,
    (exists r,
       rep_greedy is_space
         (fun c => match rest c with [] => Some c | _ :: _ => None end)
         n pv cs l = Some r) <->
    Forall (fun c => is_space c = true) l.
Proof.
  induction l as [|x l IH]; intros n pv cs; simpl.
  - split; [constructor | eauto].
  - destruct (is_space x) eqn:Hx.
    + specialize (IH (S n) (Some x) cs).
      destruct (rep_greedy is_space _ (S n) (Some x) cs l) as [r|].
      * split; [intros _; constructor; [exact Hx | apply IH; eauto] | eauto].
      * split; [intros [r Hr]; discriminate |].
        intros H; inversion H; subst. apply IH; assumption.
    + split; [intros [r Hr]; discriminate |].
      intros H; inversion H; congruence.
Qed.

Lemma fullmatch_ws_spec (between : text) :
  fullmatch_ws between = true <-> Forall (fun c => is_space c = true) between.
Proof.
  unfold fullmatch_ws; simpl.
  rewrite <- (fullmatch_ws_greedy between 0 None []).
  destruct (rep_greedy is_space _ 0 None [] between) as [r|].
  - split; eauto.
  - split; [discriminate | intros [r Hr]; discriminate].
Qed.

Lemma in_targets_spec (vt : text) : in_targets vt = true <-> In vt targets.
Proof.
  unfold in_targets. rewrite existsb_exists. split.
  - intros (x & Hin & Heq). apply text_eqb_eq in Heq; subst; assumption.
  - intros Hin. exists vt; split; [assumption | apply text_eqb_refl].
Qed.

Lemma qualifies_spec (any_ : bool) (vtype : option text) :
  qualifies any_ vtype = true <->
  exists v, vtype = Some v /\
            startswith (lit "VMT_") (upper v) = true /\
            (any_ = true \/ In (upper v) targets).
Proof.
  unfold qualifies. destruct vtype as [v|].
  - destruct v as [|c v].
    + split; [discriminate |].
      intros (v & Hv & Hs & _). injection Hv as <-. discriminate.
    + destruct (startswith (lit "VMT_") (upper (c :: v))) eqn:Hs;
        cbn [negb andb].
      * destruct any_; cbn [negb andb].
        -- split; [intros _ | intros _; reflexivity]. eauto.
        -- destruct (in_targets (upper (c :: v))) eqn:Ht; cbn [negb andb].
           ++ split; [intros _ | intros _; reflexivity].
              exists (c :: v); repeat split; [exact Hs |].
              right; apply in_targets_spec; exact Ht.
           ++ split; [discriminate |].
              intros (v' & Hv & _ & [Ha|Hin]); [discriminate|].
              injection Hv as <-. apply in_targets_spec in Hin. congruence.
      * split; [discriminate |].
        intros (v' & Hv & Hs' & _). injection Hv as <-. congruence.
  - split; [discriminate | intros (v & Hv & _); discriminate].
Qed.

Lemma qualifies_nonempty (any_ : bool) (v : text) :
  qualifies any_ (Some v) = true -> upper v <> [].
Proof. destruct v; simpl; [discriminate | intros _; discriminate]. Qed.

Lemma continues_spec (t vt : text) (group_end : nat) (it : item) :
  vt <> [] ->
  (continues t vt group_end it = true <->
   same_type vt it /\ blank_gap t group_end it).
Proof.
  intros Hvt. unfold continues, same_type, blank_gap.
  destruct (i_vtype it) as [v2|].
  - destruct v2 as [|c v2].
    + split; [discriminate |].
      intros [(v & Hv & Hu) _]. injection Hv as <-.
      exfalso; apply Hvt; rewrite <- Hu; reflexivity.
    + rewrite andb_true_iff, text_eqb_eq, fullmatch_ws_spec. split.
      * intros [Hu Hb]; split; [eauto | exact Hb].
      * intros [(v & Hv & Hu) Hb]. injection Hv as <-. auto.
  - split; [discriminate | intros [(v & Hv & _) _]; discriminate].
Qed.

(** The inner loop takes blocks exactly while the test holds. *)
Lemma extend_spec (t vt : text) :
  vt <> [] ->
  forall items group_end,
    exists taken,
      items = taken ++ snd (extend t vt group_end items) /\
      run_members t vt group_end taken (fst (extend t vt group_end items)) /\
      run_stops t vt (fst (extend t vt group_end items))
                (snd (extend t vt group_end items)).
Proof.
  intros Hvt items; induction items as [|it items IH]; intros e0; simpl.
  - exists []; repeat split; constructor.
  - destruct (continues t vt e0 it) eqn:Hc.
    + destruct (IH (i_end it)) as (taken & E & M & S).
      exists (it :: taken); repeat split.
      * simpl; f_equal; exact E.
      * apply (continues_spec _ _ _ _ Hvt) in Hc. destruct Hc as [Hs Hb].
        constructor; assumption.
      * exact S.
    + exists []; simpl; repeat split; [constructor |].
      intros H. apply (continues_spec _ _ _ _ Hvt) in H. congruence.
Qed.

Lemma extend_length (t vt : text) (items : list item) :
  forall group_end,
    length (snd (extend t vt group_end items)) <= length items.
Proof.
  induction items as [|it items IH]; intros e0; simpl; [lia|].
  destruct (continues t vt e0 it); simpl; [|lia].
  specialize (IH (i_end it)); lia.
Qed.

(** The bound of the outer loop is never reached. *)
Lemma group_from_fuel (any_ : bool) (t : text) :
  forall f1 f2 items,
    length items <= f1 -> length items <= f2 ->
    group_from f1 any_ t items = group_from f2 any_ t items.
Proof.
  induction f1 as [|f1 IH]; intros f2 items H1 H2.
  - destruct items; [|simpl in H1; lia]. destruct f2; reflexivity.
  - destruct items as [|it items]; [destruct f2; reflexivity|].
    destruct f2 as [|f2]; [simpl in H2; lia|].
    simpl in *.
    destruct (qualifies any_ (i_vtype it)).
    + pose proof (extend_length t
        (upper match i_vtype it with Some v => v | None => [] end)
        items (i_end it)) as L.
      destruct (extend t _ (i_end it) items) as [e items'']; simpl in L.
      f_equal. apply IH; lia.
    + apply IH; lia.
Qed.

(** One round of the outer loop. *)
Lemma group_runs_cons (any_ : bool) (t : text) (it : item) (items : list item) :
  group_runs any_ t (it :: items) =
  if qualifies any_ (i_vtype it) then
    let vt := upper (match i_vtype it with Some v => v | None => [] end) in
    Group (i_start it) (fst (extend t vt (i_end it) items)) (i_indent it) vt ::
    group_runs any_ t (snd (extend t vt (i_end it) items))
  else group_runs any_ t items.
Proof.
  unfold group_runs; simpl.
  destruct (qualifies any_ (i_vtype it)); [|reflexivity].
  pose proof (extend_length t
    (upper match i_vtype it with Some v => v | None => [] end)
    items (i_end it)) as L.
  destruct (extend t _ (i_end it) items) as [e items'']; simpl in *.
  f_equal. apply group_from_fuel; lia.
Qed.

(** The loops compute the runs of the blocks. *)
Lemma group_runs_grouped (any_ : bool) (t : text) (items : list item) :
  grouped any_ t items (group_runs any_ t items).
Proof.
  remember (length items) as n eqn:Hn.
  revert items Hn; induction n as [n IH] using lt_wf_ind; intros items Hn.
  destruct items as [|it items]; [constructor|].
  rewrite group_runs_cons.
  destruct (qualifies any_ (i_vtype it)) eqn:Hq.
  - destruct (i_vtype it) as [v|] eqn:Hv; [|discriminate].
    cbv zeta.
    destruct (extend_spec t (upper v) (qualifies_nonempty _ _ Hq) items (i_end it))
      as (taken & E & M & S).
    pose proof (extend_length t (upper v) items (i_end it)) as L.
    rewrite E at 1.
    eapply grouped_run; try eassumption.
    eapply IH; [|reflexivity]. simpl in Hn; lia.
  - apply grouped_skip; [exact Hq|].
    eapply IH; [|reflexivity]. simpl in Hn; lia.
Qed.

Lemma run_members_ordered (t vt : text) (hi : nat) (rest' : list item) :
  forall e0 taken e,
    run_members t vt e0 taken e ->
    ordered_items e0 hi (taken ++ rest') -> e0 <= hi ->
    e0 <= e /\ e <= hi /\ ordered_items e hi rest'.
Proof.
  induction 1 as [e0 | e0 it taken e Hs Hb M IH]; intros O H0.
  - simpl in O; auto.
  - simpl in O. destruct O as (O1 & O2 & O3 & O4).
    destruct (IH O4 O3) as (I1 & I2 & I3).
    repeat split; [lia | exact I2 | exact I3].
Qed.

Lemma last_cons_default {A : Type} (l : list A) :
  forall x d d', last (x :: l) d = last (x :: l) d'.
Proof.
  induction l as [|y l IH]; intros x d d'; [reflexivity|].
  change (last (x :: y :: l) d) with (last (y :: l) d).
  change (last (x :: y :: l) d') with (last (y :: l) d').
  apply IH.
Qed.

Lemma last_cons_in {A : Type} (l : list A) :
  forall x d, In (last (x :: l) d) (x :: l).
Proof.
  induction l as [|y l IH]; intros x d; [left; reflexivity|].
  change (last (x :: y :: l) d) with (last (y :: l) d).
  right; apply IH.
Qed.

(** A run ends where its last block ends. *)
Lemma run_members_last (t vt : text) :
  forall e0 taken e,
    run_members t vt e0 taken e ->
    forall it0, e0 = i_end it0 ->
    e = i_end (last (it0 :: taken) it0).
Proof.
  induction 1 as [e0 | e0 it taken e Hs Hb M IH]; intros it0 H0.
  - exact H0.
  - rewrite (IH it eq_refl).
    change (last (it0 :: it :: taken) it0) with (last (it :: taken) it0).
    f_equal. apply last_cons_default.
Qed.

Lemma ordered_items_weaken (lo lo' hi : nat) (items : list item) :
  lo <= lo' -> ordered_items lo' hi items -> ordered_items lo hi items.
Proof.
  destruct items as [|it items]; simpl; [auto|].
  intros H (A & B & C & D); repeat split; try assumption; lia.
Qed.

Lemma ordered_groups_weaken (lo lo' hi : nat) (groups : list group) :
  lo <= lo' -> ordered_groups lo' hi groups -> ordered_groups lo hi groups.
Proof.
  destruct groups as [|g groups]; simpl; [auto|].
  intros H (A & B & C & D); repeat split; try assumption; lia.
Qed.

(** Runs of ordered blocks are ordered. *)
Lemma grouped_ordered (any_ : bool) (t : text) (hi : nat) :
  forall items groups,
    grouped any_ t items groups ->
    forall lo, ordered_items lo hi items -> ordered_groups lo hi groups.
Proof.
  induction 1 as [| it items groups Hq G IH
                  | it v taken rest' e groups Hv Hq M S G IH]; intros lo O.
  - exact I.
  - simpl in O. destruct O as (A & B & C & D).
    apply (ordered_groups_weaken lo (i_end it)); [lia | apply IH; exact D].
  - simpl in O. destruct O as (A & B & C & D).
    destruct (run_members_ordered _ _ _ _ _ _ _ M D C) as (E1 & E2 & E3).
    simpl. repeat split; [exact A | lia | exact E2 | apply IH; exact E3].
Qed.

Lemma subseq_app_skip {A : Type} (l0 l1 l2 : list A) :
  subseq l1 l2 -> subseq l1 (l0 ++ l2).
Proof.
  intros H; induction l0 as [|x l0 IH]; simpl; [exact H | apply subseq_skip; exact IH].
Qed.

(** Runs start at blocks, in the order of the blocks. *)
Lemma grouped_subseq (any_ : bool) (t : text) :
  forall items groups,
    grouped any_ t items groups ->
    subseq (map g_start groups) (map i_start items).
Proof.
  induction 1 as [| it items groups Hq G IH
                  | it v taken rest' e groups Hv Hq M S G IH]; simpl.
  - apply subseq_nil.
  - apply subseq_skip; exact IH.
  - apply subseq_take. rewrite map_app. apply subseq_app_skip; exact IH.
Qed.

(** Each run comes from a block that starts it and a block that ends it. *)
Lemma grouped_in (any_ : bool) (t : text) :
  forall items groups,
    grouped any_ t items groups ->
    forall g, In g groups ->
    exists it v last_it,
      In it items /\ In last_it items /\
      i_vtype it = Some v /\ qualifies any_ (Some v) = true /\
      g_start g = i_start it /\ g_indent g = i_indent it /\
      g_vt g = upper v /\ g_end g = i_end last_it.
Proof.
  induction 1 as [| it items groups Hq G IH
                  | it v taken rest' e groups Hv Hq M S G IH]; intros g Hg.
  - destruct Hg.
  - destruct (IH g Hg) as (it' & v & l' & I1 & I2 & R).
    exists it', v, l'; repeat split; try (right; assumption); apply R.
  - destruct Hg as [<-|Hg].
    + exists it, v, (last (it :: taken) it); simpl g_start; simpl g_end;
        simpl g_indent; simpl g_vt.
      repeat split; try assumption.
      * left; reflexivity.
      * destruct (last_cons_in taken it it) as [Hin|Hin];
          [left; exact Hin | right].
        apply in_or_app; left; exact Hin.
      * apply (run_members_last _ _ _ _ _ M); reflexivity.
    + destruct (IH g Hg) as (it' & v' & l' & I1 & I2 & R).
      exists it', v', l'; repeat split;
        try (right; apply in_or_app; right; assumption); apply R.
Qed.

(** ** The matcher on the pieces of the two expressions *)

Lemma advance_0 (c : cursor) : advance c 0 = c.
Proof. destruct c; unfold advance; simpl. rewrite Nat.add_0_r; reflexivity. Qed.

Lemma advance_advance (c : cursor) (i j : nat) :
  advance (advance c i) j = advance c (i + j).
Proof.
  destruct c as [n pv l cs]; unfold advance; simpl.
  rewrite skipn_skipn, Nat.add_assoc, (Nat.add_comm j i).
  f_equal.
  rewrite <- last_or_app. f_equal.
  rewrite <- (firstn_skipn i l) at 3.
  rewrite firstn_app.
  destruct (le_lt_dec (length l) i) as [Hle|Hlt].
  - rewrite (firstn_all2 (n:=i + j)) by (rewrite length_firstn; lia).
    rewrite skipn_all2 by lia. rewrite firstn_nil, app_nil_r.
    rewrite firstn_nil. symmetry; apply app_nil_r.
  - rewrite length_firstn, Nat.min_l by lia.
    rewrite (firstn_all2 (n:=i + j)) by (rewrite length_firstn; lia).
    replace (i + j - i) with j by lia. reflexivity.
Qed.

Lemma run_lit_ci (s : text) (k : kont) :
  forall c,
    run (lit_ci s) k c =
    if starts_ci s (rest c) then k (advance c (length s)) else None.
Proof.
  induction s as [|a s IH]; intros c.
  - simpl. rewrite advance_0; reflexivity.
  - destruct c as [n pv l cs]. simpl.
    destruct l as [|x l]; [reflexivity|].
    destruct (ci a x); [|reflexivity]. simpl.
    rewrite IH. simpl.
    destruct (starts_ci s l); [|reflexivity].
    unfold advance; simpl. do 2 f_equal. lia.
Qed.

(** When the continuation cannot start with a character of the class, a
    greedy repetition keeps every character it took. *)
Lemma rep_greedy_max (p : ascii -> bool) (k : kont) :
  (forall n pv cs x l, p x = true -> k (Cur n pv (x :: l) cs) = None) ->
  forall l n pv cs,
    rep_greedy p k n pv cs l =
    k (advance (Cur n pv l cs) (length (takewhile p l))).
Proof.
  intros Hk l; induction l as [|x l IH]; intros n pv cs.
  - simpl. rewrite advance_0; reflexivity.
  - simpl. destruct (p x) eqn:Hx.
    + rewrite IH, (Hk _ _ _ _ _ Hx).
      unfold advance; simpl.
      replace (n + S (length (takewhile p l)))
        with (S (n + length (takewhile p l))) by lia.
      destruct (k _); reflexivity.
    + simpl. rewrite advance_0; reflexivity.
Qed.

(** A greedy repetition whose continuation succeeds after the longest run
    returns that success. *)
Lemma rep_greedy_first (p : ascii -> bool) (k : kont) (r : cursor) :
  forall l n pv cs,
    k (advance (Cur n pv l cs) (length (takewhile p l))) = Some r ->
    rep_greedy p k n pv cs l = Some r.
Proof.
  intros l; induction l as [|x l IH]; intros n pv cs H.
  - simpl in *. rewrite advance_0 in H; exact H.
  - simpl in *. destruct (p x) eqn:Hx.
    + rewrite (IH (S n) (Some x) cs); [reflexivity|].
      unfold advance in *; simpl in *.
      replace (S (n + length (takewhile p l)))
        with (n + S (length (takewhile p l))) by lia.
      exact H.
    + simpl in H. rewrite advance_0 in H; exact H.
Qed.

(** A lazy run of any characters before a literal stops at the first place
    where the literal begins. *)
Lemma rep_lazy_find (s : text) (g a : nat) :
  forall l n pv cs,
    rep_lazy any_char
      (fun c' => run (lit_ci s) Some (set_cap g (a, pos c') c')) n pv cs l =
    match find_ci s l with
    | Some j =>
        Some (advance (set_cap g (a, n + j) (advance (Cur n pv l cs) j))
                      (length s))
    | None => None
    end.
Proof.
  intros l; induction l as [|x l IH]; intros n pv cs.
  - simpl. rewrite run_lit_ci. simpl.
    destruct (starts_ci s []); [|reflexivity].
    rewrite advance_0, Nat.add_0_r. reflexivity.
  - cbn [rep_lazy find_ci]. rewrite run_lit_ci. cbn [rest set_cap].
    destruct (starts_ci s (x :: l)).
    + rewrite advance_0, Nat.add_0_r. reflexivity.
    + cbn [any_char]. rewrite IH.
      destruct (find_ci s l) as [j|]; [|reflexivity].
      cbn [option_map]. unfold advance, set_cap; simpl.
      repeat f_equal; lia.
Qed.

Lemma ci_lt (x : ascii) : ci "<"%char x = Ascii.eqb x "<"%char.
Proof. destruct x as [[] [] [] [] [] [] [] []]; reflexivity. Qed.

Lemma ci_gt (x : ascii) : ci ">"%char x = Ascii.eqb x ">"%char.
Proof. destruct x as [[] [] [] [] [] [] [] []]; reflexivity. Qed.

Lemma blank_not_lt (x : ascii) : is_blank x = true -> ci "<"%char x = false.
Proof. destruct x as [[] [] [] [] [] [] [] []]; try reflexivity; discriminate. Qed.

Lemma blank_is_space (x : ascii) : is_blank x = true -> is_space x = true.
Proof. destruct x as [[] [] [] [] [] [] [] []]; try reflexivity; discriminate. Qed.

(** [ITEM_RE] matches what [item_at] computes. *)
Lemma run_ITEM_RE (c : cursor) : run ITEM_RE Some c = item_at c.
Proof.
  unfold ITEM_RE, item_at, item_tag, item_attrs, item_gt, item_close.
  cbn [run]. destruct (at_bol c); [|reflexivity].
  destruct c as [n pv l cs]. cbn [pos prev rest caps].
  rewrite rep_greedy_max.
  2:{ intros n' pv' cs' x l' Hx. rewrite run_lit_ci.
      cbn [rest set_cap lit list_ascii_of_string starts_ci].
      rewrite (blank_not_lt _ Hx); reflexivity. }
  cbv zeta.
  set (c1 := set_cap 1 _ (advance (Cur n pv l cs) _)).
  replace (set_cap 1 (pos (Cur n pv l cs), pos (advance (Cur n pv l cs)
             (length (takewhile is_blank l))))
             (advance (Cur n pv l cs) (length (takewhile is_blank l))))
    with c1 by reflexivity.
  rewrite run_lit_ci.
  destruct (starts_ci (lit "<Item") (rest c1)); [|reflexivity].
  change (length (lit "<Item")) with 5.
  set (c2 := advance c1 5).
  cbn [run]. destruct (at_wordb c2); [|reflexivity].
  rewrite rep_greedy_max.
  2:{ intros n' pv' cs' x l' Hx. cbn [rest]. rewrite ci_gt.
      unfold not_char in Hx. destruct (Ascii.eqb x ">"); [discriminate | reflexivity]. }
  replace (Cur (pos c2) (prev c2) (rest c2) (caps c2)) with c2
    by (destruct c2; reflexivity).
  set (c3 := advance c2 _).
  destruct c3 as [n3 pv3 l3 cs3] eqn:E3. cbn [rest starts_ci lit list_ascii_of_string pos caps].
  destruct l3 as [|x l3]; [reflexivity|].
  destruct (ci ">" x); [|reflexivity]. cbn [andb].
  rewrite rep_lazy_find.
  unfold advance at 4. cbn [rest pos prev caps skipn firstn].
  replace (S n3) with (n3 + 1) by lia.
  destruct (find_ci (lit "</Item>") l3) as [j|]; [|reflexivity].
  reflexivity.
Qed.

(** ** What [item_at] accepts *)

Lemma skipn_app_len (w l : text) : skipn (length w) (w ++ l) = l.
Proof. induction w; simpl; auto. Qed.

Lemma firstn_app_len (w l : text) : firstn (length w) (w ++ l) = w.
Proof. induction w; simpl; [reflexivity | f_equal; auto]. Qed.

Lemma takewhile_split (p : ascii -> bool) (l : text) :
  l = takewhile p l ++ skipn (length (takewhile p l)) l /\
  Forall (fun x => p x = true) (takewhile p l) /\
  match skipn (length (takewhile p l)) l with
  | [] => True
  | x :: _ => p x = false
  end.
Proof.
  induction l as [|x l (IH1 & IH2 & IH3)]; simpl; [auto|].
  destruct (p x) eqn:Hx; simpl.
  - repeat split; [f_equal; exact IH1 | constructor; assumption | exact IH3].
  - auto.
Qed.

Lemma takewhile_app_stop (p : ascii -> bool) (w l : text) :
  Forall (fun x => p x = true) w ->
  match l with [] => True | x :: _ => p x = false end ->
  takewhile p (w ++ l) = w.
Proof.
  intros Hw Hl; induction Hw as [|x w Hx Hw IH].
  - destruct l as [|y l]; simpl; [reflexivity | rewrite Hl; reflexivity].
  - simpl. rewrite Hx, IH; reflexivity.
Qed.

Lemma starts_ci_app (s w l : text) :
  starts_ci s w = true -> starts_ci s (w ++ l) = true.
Proof.
  revert w; induction s as [|a s IH]; intros w H; [reflexivity|].
  destruct w as [|x w]; [discriminate|]. simpl in *.
  apply andb_true_iff in H as [H1 H2]. rewrite H1, (IH _ H2); reflexivity.
Qed.

Lemma starts_ci_split (s l : text) :
  starts_ci s l = true ->
  l = firstn (length s) l ++ skipn (length s) l /\
  ci_text s (firstn (length s) l).
Proof.
  intros H; split; [symmetry; apply firstn_skipn|].
  revert l H; induction s as [|a s IH]; intros l H.
  - split; reflexivity.
  - destruct l as [|x l]; [discriminate|]. simpl in H.
    apply andb_true_iff in H as [H1 H2].
    destruct (IH _ H2) as [L S]. split; simpl; [f_equal; exact L|].
    rewrite H1; exact S.
Qed.

Lemma find_ci_spec (s l : text) :
  forall j, find_ci s l = Some j ->
    j <= length l /\ starts_ci s (skipn j l) = true /\
    forall i, i < j -> starts_ci s (skipn i l) = false.
Proof.
  induction l as [|x l IH]; intros j H.
  - simpl in H. destruct (starts_ci s []) eqn:E; [|discriminate].
    injection H as <-. repeat split; [lia | exact E | intros; lia].
  - cbn [find_ci] in H. destruct (starts_ci s (x :: l)) eqn:E.
    + injection H as <-. repeat split; [lia | exact E | intros; lia].
    + destruct (find_ci s l) as [j'|]; [|discriminate].
      injection H as <-. destruct (IH j' eq_refl) as (A & B & C).
      repeat split; [simpl; lia | exact B |].
      intros [|i] Hi; [exact E | simpl; apply C; lia].
Qed.


Lemma find_ci_none (s l : text) :
  find_ci s l = None -> forall i, starts_ci s (skipn i l) = false.
Proof.
  induction l as [|x l IH]; intros H i.
  - simpl in H. destruct (starts_ci s []) eqn:E; [discriminate|].
    destruct i; exact E.
  - cbn [find_ci] in H. destruct (starts_ci s (x :: l)) eqn:E; [discriminate|].
    destruct (find_ci s l); [discriminate|].
    destruct i; [exact E | simpl; apply IH; reflexivity].
Qed.

Lemma last_or_nonempty (d d' : option ascii) (w : text) :
  w <> [] -> last_or d w = last_or d' w.
Proof. destruct w; [congruence | reflexivity]. Qed.

Lemma ci_m_word (x : ascii) : ci "m"%char x = true -> is_word x = true.
Proof. destruct x as [[] [] [] [] [] [] [] []]; try reflexivity; discriminate. Qed.

Lemma ci_gt_eq (x : ascii) : ci ">"%char x = true -> x = ">"%char.
Proof. rewrite ci_gt. apply Ascii.eqb_eq. Qed.

Lemma ci_lt_eq (x : ascii) : ci "<"%char x = true -> x = "<"%char.
Proof. rewrite ci_lt. apply Ascii.eqb_eq. Qed.

Lemma ci_text_open_tag (tag : text) :
  ci_text (lit "<Item") tag ->
  exists x2 x3 x4 x5,
    tag = ["<"%char; x2; x3; x4; x5] /\ is_word x5 = true.
Proof.
  intros [L S].
  destruct tag as [|x1 [|x2 [|x3 [|x4 [|x5 [|x6 tag]]]]]]; try discriminate.
  simpl in S.
  repeat (apply andb_true_iff in S as [? S]).
  exists x2, x3, x4, x5; split.
  - f_equal. apply ci_lt_eq; assumption.
  - apply ci_m_word; assumption.
Qed.

Lemma ci_text_close_tag (close : text) :
  ci_text (lit "</Item>") close ->
  exists w, close = w ++ [">"%char] /\ length w = 6.
Proof.
  intros [L S].
  destruct close as [|x1 [|x2 [|x3 [|x4 [|x5 [|x6 [|x7 [|x8 close]]]]]]]];
    try discriminate.
  simpl in S.
  repeat (apply andb_true_iff in S as [? S]).
  exists [x1; x2; x3; x4; x5; x6]; split; [|reflexivity].
  simpl. repeat f_equal. apply ci_gt_eq; assumption.
Qed.

(** ** [item_at] on text laid out as an item element *)
Lemma firstn_app_n (w l : text) (k : nat) :
  length w = k -> firstn k (w ++ l) = w.
Proof. intros <-; apply firstn_app_len. Qed.

Lemma skipn_app_n (w l : text) (k : nat) :
  length w = k -> skipn k (w ++ l) = l.
Proof. intros <-; apply skipn_app_len. Qed.

Lemma advance_app (n : nat) (pv : option ascii) (w l : text)
    (cs : list (nat * (nat * nat))) (k : nat) :
  length w = k ->
  advance (Cur n pv (w ++ l) cs) k = Cur (n + k) (last_or pv w) l cs.
Proof.
  intros <-. unfold advance; cbn [pos prev rest caps].
  rewrite firstn_app_len, skipn_app_len; reflexivity.
Qed.

Lemma at_bol_spec (c : cursor) :
  at_bol c = true <-> prev c = None \/ prev c = Some "010"%char.
Proof.
  unfold at_bol. destruct (prev c) as [x|].
  - rewrite Ascii.eqb_eq. split.
    + intros ->; right; reflexivity.
    + intros [H|H]; [discriminate | congruence].
  - split; auto.
Qed.

Lemma item_close_found (n : nat) (pv : option ascii) (body : text)
    (cs : list (nat * (nat * nat))) (j : nat) :
  find_ci (lit "</Item>") body = Some j ->
  item_close (Cur n pv body cs) =
  Some (Cur (n + j + 7) (Some ">"%char) (skipn (j + 7) body)
            ((2, (n, n + j)) :: cs)).
Proof.
  intros Hf. unfold item_close; cbn [rest pos]. rewrite Hf.
  destruct (find_ci_spec _ _ _ Hf) as (Hj & Hs & _).
  destruct (starts_ci_split _ _ Hs) as [Hsplit Hct].
  destruct (ci_text_close_tag _ Hct) as (w & Hw & Lw).
  change (length (lit "</Item>")) with 7 in *.
  unfold advance, set_cap; cbn [pos prev rest caps].
  rewrite Hw, last_or_snoc, skipn_skipn, (Nat.add_comm 7 j). reflexivity.
Qed.

Lemma item_gt_open (n : nat) (pv : option ascii) (body : text)
    (cs : list (nat * (nat * nat))) :
  item_gt (Cur n pv (lit ">" ++ body) cs) =
  item_close (Cur (n + 1) (Some ">"%char) body cs).
Proof. reflexivity. Qed.

Lemma item_attrs_open (n : nat) (x : ascii) (attrs body : text)
    (cs : list (nat * (nat * nat))) :
  is_word x = true ->
  Forall (fun a => a <> ">"%char) attrs ->
  match attrs with [] => True | a :: _ => is_word a = false end ->
  item_attrs (Cur n (Some x) (attrs ++ lit ">" ++ body) cs) =
  item_gt (Cur (n + length attrs) (last_or (Some x) attrs) (lit ">" ++ body) cs).
Proof.
  intros Hx Ha Hh. unfold item_attrs, at_wordb, word_before, word_after.
  cbn [prev rest]. rewrite Hx.
  replace (match attrs ++ lit ">" ++ body with [] => false | a :: _ => is_word a end)
    with false by (destruct attrs; [reflexivity | symmetry; exact Hh]).
  cbn [xorb].
  rewrite takewhile_app_stop.
  - rewrite advance_app by reflexivity. reflexivity.
  - eapply Forall_impl; [|exact Ha]. intros a Hne. unfold not_char.
    destruct (Ascii.eqb a ">") eqn:E; [apply Ascii.eqb_eq in E; congruence | reflexivity].
  - reflexivity.
Qed.

Lemma item_tag_open (n : nat) (pv : option ascii) (tag l : text)
    (cs : list (nat * (nat * nat))) :
  ci_text (lit "<Item") tag ->
  exists x, is_word x = true /\
    item_tag (Cur n pv (tag ++ l) cs) = item_attrs (Cur (n + 5) (Some x) l cs).
Proof.
  intros Ht. destruct (ci_text_open_tag tag Ht) as (x2 & x3 & x4 & x5 & -> & Hw).
  destruct Ht as [_ Hs]. exists x5; split; [exact Hw|].
  unfold item_tag; cbn [rest].
  rewrite (starts_ci_app _ _ l Hs).
  rewrite advance_app by reflexivity. reflexivity.
Qed.

Lemma item_at_indent (n : nat) (pv : option ascii) (indent l : text)
    (cs : list (nat * (nat * nat))) :
  at_bol (Cur n pv [] []) = true ->
  Forall (fun x => is_blank x = true) indent ->
  match l with [] => True | x :: _ => is_blank x = false end ->
  item_at (Cur n pv (indent ++ l) cs) =
  item_tag (Cur (n + length indent) (last_or pv indent) l
                ((1, (n, n + length indent)) :: cs)).
Proof.
  intros Hb Hi Hl. unfold item_at.
  replace (at_bol (Cur n pv (indent ++ l) cs)) with true by (symmetry; exact Hb).
  cbn [rest pos]. rewrite (takewhile_app_stop _ _ _ Hi Hl).
  cbv zeta. rewrite advance_app by reflexivity. reflexivity.
Qed.

(** [item_at] on a cursor whose text is laid out as an item element. *)
Lemma item_at_open (n : nat) (pv : option ascii) (cs : list (nat * (nat * nat)))
    (indent tag attrs body : text) (j : nat) :
  at_bol (Cur n pv [] []) = true ->
  Forall (fun x => is_blank x = true) indent ->
  ci_text (lit "<Item") tag ->
  Forall (fun x => x <> ">"%char) attrs ->
  match attrs with [] => True | x :: _ => is_word x = false end ->
  find_ci (lit "</Item>") body = Some j ->
  item_at (Cur n pv (indent ++ tag ++ attrs ++ lit ">" ++ body) cs) =
  Some (Cur (n + length indent + 5 + length attrs + 1 + j + 7)
            (Some ">"%char)
            (skipn (j + 7) body)
            ((2, (n + length indent + 5 + length attrs + 1,
                  n + length indent + 5 + length attrs + 1 + j))
             :: (1, (n, n + length indent)) :: cs)).
Proof.
  intros Hb Hi Ht Ha Hh Hf.
  rewrite item_at_indent; [|exact Hb|exact Hi|].
  2:{ destruct (ci_text_open_tag tag Ht) as (x2 & x3 & x4 & x5 & -> & _).
      reflexivity. }
  destruct (item_tag_open (n + length indent) (last_or pv indent) tag
              (attrs ++ lit ">" ++ body)
              ((1, (n, n + length indent)) :: cs) Ht) as (x & Hx & ->).
  rewrite (item_attrs_open _ _ _ _ _ Hx Ha Hh), item_gt_open.
  apply item_close_found; exact Hf.
Qed.

Lemma not_char_ne (a x : ascii) : not_char a x = true <-> x <> a.
Proof.
  unfold not_char. destruct (Ascii.eqb x a) eqn:E.
  - apply Ascii.eqb_eq in E. split; [discriminate | congruence].
  - apply Ascii.eqb_neq in E. split; auto.
Qed.

(** What a match of [item_at] is made of. *)
Lemma item_at_inv (c c' : cursor) :
  item_at c = Some c' ->
  at_bol c = true /\
  exists indent tag attrs inner close,
    rest c = indent ++ tag ++ attrs ++ lit ">" ++ inner ++ close ++ rest c' /\
    pos c' = pos c + length (indent ++ tag ++ attrs ++ lit ">" ++ inner ++ close) /\
    Forall (fun x => is_blank x = true) indent /\
    ci_text (lit "<Item") tag /\
    Forall (fun x => x <> ">"%char) attrs /\
    match attrs with [] => True | x :: _ => is_word x = false end /\
    ci_text (lit "</Item>") close /\
    caps c' = (2, (pos c + length (indent ++ tag ++ attrs) + 1,
                   pos c + length (indent ++ tag ++ attrs) + 1 + length inner))
              :: (1, (pos c, pos c + length indent)) :: caps c /\
    (forall i, i < length inner ->
       starts_ci (lit "</Item>") (skipn i (inner ++ close ++ rest c')) = false).
Proof.
  destruct c as [n pv l cs]. unfold item_at.
  destruct (at_bol (Cur n pv l cs)) eqn:Hb; [|discriminate].
  cbn [rest pos]. cbv zeta.
  destruct (takewhile_split is_blank l) as (El & Hind & _).
  set (indent := takewhile is_blank l) in *.
  set (l1 := skipn (length indent) l) in *.
  rewrite El at 1. rewrite advance_app by reflexivity.
  unfold set_cap; cbn [pos prev rest caps].
  unfold item_tag; cbn [rest].
  destruct (starts_ci (lit "<Item") l1) eqn:Hs1; [|discriminate].
  destruct (starts_ci_split _ _ Hs1) as [E1 Htag].
  change (length (lit "<Item")) with 5 in *.
  set (tag := firstn 5 l1) in *. set (l2 := skipn 5 l1) in *.
  rewrite E1 at 1. rewrite advance_app by apply Htag.
  destruct (ci_text_open_tag tag Htag) as (x2 & x3 & x4 & x5 & Etag & Hw).
  unfold item_attrs, at_wordb, word_before, word_after; cbn [prev rest].
  rewrite Etag at 1. cbn [last_or fold_left]. rewrite Hw.
  destruct (takewhile_split (not_char ">"%char) l2) as (E2 & Hattrs & Hstop).
  set (attrs := takewhile (not_char ">"%char) l2) in *.
  set (l3 := skipn (length attrs) l2) in *.
  assert (Hhead : match l2 with [] => false | x :: _ => is_word x end = false ->
                  match attrs with [] => True | x :: _ => is_word x = false end).
  { intros H. rewrite E2 in H. destruct attrs; [exact I | exact H]. }
  destruct (match l2 with [] => false | x :: _ => is_word x end);
    [discriminate|]. specialize (Hhead eq_refl). cbn [xorb].
  rewrite E2 at 1. rewrite advance_app by reflexivity.
  unfold item_gt; cbn [rest].
  destruct l3 as [|g l4] eqn:E3; [discriminate|].
  cbn [lit list_ascii_of_string starts_ci].
  destruct (ci ">" g) eqn:Hg; [|discriminate].
  apply ci_gt_eq in Hg; subst g. cbn [andb].
  unfold advance at 1; cbn [pos prev rest caps skipn firstn].
  unfold item_close; cbn [rest pos].
  destruct (find_ci (lit "</Item>") l4) as [j|] eqn:Hf; [|discriminate].
  destruct (find_ci_spec _ _ _ Hf) as (Hj & Hs & Hmin).
  destruct (starts_ci_split _ _ Hs) as [E4 Hclose].
  change (length (lit "</Item>")) with 7 in *.
  intros H; injection H as <-.
  split; [reflexivity|].
  exists indent, tag, attrs, (firstn j l4), (firstn 7 (skipn j l4)).
  unfold advance, set_cap; cbn [pos prev rest caps].
  assert (Lj : length (firstn j l4) = j) by (rewrite length_firstn; lia).
  assert (E5 : l4 = firstn j l4 ++ firstn 7 (skipn j l4) ++ skipn 7 (skipn j l4)).
  { rewrite <- E4. symmetry; apply firstn_skipn. }
  repeat split.
  - rewrite El at 1. rewrite E1 at 1. rewrite E2 at 1.
    cbn [lit list_ascii_of_string app]. do 4 f_equal. exact E5.
  - rewrite !length_app. destruct Hclose as [Lc _]. destruct Htag as [Lt _].
    rewrite Lj, Lc, Lt. cbn [lit list_ascii_of_string length]. lia.
  - exact Hind.
  - apply Htag.
  - apply Htag.
  - eapply Forall_impl; [|exact Hattrs]. intros a. apply not_char_ne.
  - exact Hhead.
  - apply Hclose.
  - apply Hclose.
  - rewrite !length_app. destruct Htag as [Lt _]. rewrite Lj, Lt.
    cbn [lit list_ascii_of_string length]. do 2 f_equal. f_equal; lia.
  - intros i Hi. rewrite <- E5. apply Hmin. lia.
Qed.

(** ** [scan_items] *)

Lemma min_len_ITEM_RE : 1 <= min_len ITEM_RE.
Proof. vm_compute. lia. Qed.

Lemma match_pos_ITEM_RE (t : text) (s : nat) :
  match_pos ITEM_RE t s = item_at (cursor_at t s).
Proof. unfold match_pos, match_at. apply run_ITEM_RE. Qed.

Lemma skipn_walk (t : text) (n : nat) (w l : text) :
  skipn n t = w ++ l -> skipn (n + length w) t = l.
Proof. intros H; apply (prev_at_walk _ _ _ _ H). Qed.

Lemma skipn_app_bound (t : text) (n : nat) (w l : text) :
  skipn n t = w ++ l -> w <> [] -> n + length w <= length t.
Proof.
  intros H Hw.
  assert (L : length (skipn n t) = length w + length l)
    by (rewrite H, length_app; reflexivity).
  rewrite length_skipn in L.
  destruct w; [congruence|]. simpl in *. lia.
Qed.

Lemma slice_of_skipn (t : text) (n : nat) (w l : text) :
  skipn n t = w ++ l -> slice t n (n + length w) = w.
Proof.
  intros H. unfold slice. replace (n + length w - n) with (length w) by lia.
  rewrite H. apply firstn_app_len.
Qed.

Lemma ordered_matches_in (hi : nat) (ms : list rmatch) :
  forall lo m, ordered_matches lo hi ms -> In m ms ->
    lo <= m_start m /\ m_start m < m_end m /\ m_end m <= hi.
Proof.
  induction ms as [|m' ms IH]; intros lo m O Hm; [destruct Hm|].
  simpl in O. destruct O as (A & B & C & D).
  destruct Hm as [->|Hm]; [lia|].
  destruct (IH _ _ D Hm) as (E & F & G). lia.
Qed.

(** The match behind a scanned block. *)
Lemma scan_items_match (t : text) (it : item) :
  In it (scan_items t) ->
  exists m c',
    In m (finditer ITEM_RE t) /\ it = scan_one t m /\
    i_start it < i_end it /\ i_end it <= length t /\
    item_at (cursor_at t (i_start it)) = Some c' /\
    pos c' = i_end it /\ caps c' = m_caps m /\
    rest c' = skipn (i_end it) t.
Proof.
  unfold scan_items. intros Hin. apply in_map_iff in Hin as (m & <- & Hm).
  destruct (finditer_spec ITEM_RE t min_len_ITEM_RE) as (O & S1 & _).
  destruct (S1 m Hm) as (c' & Hc & Hp & Hcaps).
  destruct (ordered_matches_in _ _ _ _ O Hm) as (_ & Hlt & Hle).
  assert (Hs : m_start m <= length t) by lia.
  destruct (match_pos_reaches _ _ _ _ Hs Hc) as (_ & _ & Hr & _).
  rewrite match_pos_ITEM_RE in Hc.
  exists m, c'. cbn [scan_one i_start i_end].
  repeat split; try assumption. congruence.
Qed.

Lemma scan_items_ordered (t : text) :
  ordered_items 0 (length t) (scan_items t).
Proof.
  destruct (finditer_spec ITEM_RE t min_len_ITEM_RE) as (O & _ & _).
  unfold scan_items. revert O. generalize 0 as lo.
  induction (finditer ITEM_RE t) as [|m ms IH]; intros lo O; simpl in *; [exact I|].
  destruct O as (A & B & C & D). repeat split; try assumption. apply IH; exact D.
Qed.

(** Every block the scanner yields is an item element of the text, from
    the start of a line to a closing tag, with the line's leading spaces
    and tabs as its indent. *)
Lemma scan_items_sound (t : text) (it : item) :
  In it (scan_items t) ->
  item_elem t (i_start it) (i_end it) (i_indent it) /\
  exists close, ci_text (lit "</Item>") close /\
                slice t (i_end it - 7) (i_end it) = close.
Proof.
  intros Hin.
  destruct (scan_items_match t it Hin)
    as (m & c' & Hm & Eit & Hlt & Hle & Hat & Hp & Hcaps & Hr).
  destruct (item_at_inv _ _ Hat)
    as (Hb & indent & tag & attrs & inner & close & E & P & Hi & Ht & Ha & Hh & Hc
        & Hcs & _).
  cbn [cursor_at rest pos caps] in *.
  assert (Eind : i_indent it = indent).
  { rewrite Eit at 1. cbn [scan_one i_indent]. unfold m_group.
    rewrite <- Hcaps, Hcs. cbn [cap_lookup Nat.eqb].
    replace (m_start m) with (i_start it) by (rewrite Eit; reflexivity).
    apply (slice_of_skipn _ _ _ _ E). }
  rewrite Hr in E. rewrite Hp in P.
  split.
  - split.
    + apply at_bol_spec in Hb. exact Hb.
    + exists tag, attrs, inner, close. rewrite Eind. repeat split; try assumption;
        try apply Ht; try apply Hc.
  - exists close. split; [exact Hc|].
    destruct Hc as [Lc _]. change (length (lit "</Item>")) with 7 in Lc.
    assert (E' : skipn (i_start it) t =
                 (indent ++ tag ++ attrs ++ lit ">" ++ inner) ++ close ++ skipn (i_end it) t)
      by (rewrite E; repeat rewrite <- app_assoc; reflexivity).
    apply skipn_walk in E'.
    assert (Epos : i_start it + length (indent ++ tag ++ attrs ++ lit ">" ++ inner)
                   = i_end it - 7).
    { rewrite P. rewrite !length_app. rewrite Lc. lia. }
    rewrite Epos in E'.
    replace (i_end it) with (i_end it - 7 + length close) at 2
      by (rewrite Lc, P, !length_app, Lc; lia).
    apply (slice_of_skipn _ _ _ _ E').
Qed.



(** ** The replacement loop *)

Lemma splice_from_preserves (t : text) (groups : list group) :
  forall p i,
    ordered_groups p (length t) groups ->
    p <= i -> i < length t -> outside groups i ->
    nth_error (splice_from t p groups) (out_pos_from p groups i) = nth_error t i.
Proof.
  induction groups as [|g groups IH]; intros p i O Hp Hi Hout; simpl.
  - unfold slice_from. rewrite nth_error_skipn. f_equal; lia.
  - simpl in O. destruct O as (A & B & C & D).
    destruct (i <? g_start g) eqn:Hlt.
    + apply Nat.ltb_lt in Hlt.
      rewrite nth_error_app1 by (rewrite slice_length; lia).
      unfold slice. rewrite nth_error_firstn.
      replace (i - p <? g_start g - p) with true
        by (symmetry; apply Nat.ltb_lt; lia).
      rewrite nth_error_skipn. f_equal; lia.
    + apply Nat.ltb_ge in Hlt.
      assert (He : g_end g <= i).
      { destruct (le_lt_dec (g_end g) i) as [|Hin]; [assumption|].
        exfalso. apply (Hout g); [left; reflexivity | lia]. }
      rewrite nth_error_app2 by (rewrite slice_length; lia).
      rewrite slice_length by lia.
      rewrite nth_error_app2 by lia.
      replace (g_start g - p + length (build_items (g_indent g) (g_vt g)) +
               out_pos_from (g_end g) groups i - (g_start g - p) -
               length (build_items (g_indent g) (g_vt g)))
        with (out_pos_from (g_end g) groups i) by lia.
      apply IH; try assumption.
      intros g' Hg'. apply Hout. right; exact Hg'.
Qed.

(** Before the first replaced span the output is the input, offset for
    offset. *)
Lemma out_pos_before (groups : list group) (i : nat) :
  (forall g, In g groups -> i < g_start g) -> out_pos groups i = i.
Proof.
  unfold out_pos. destruct groups as [|g groups]; intros H; simpl; [lia|].
  replace (i <? g_start g) with true
    by (symmetry; apply Nat.ltb_lt; apply H; left; reflexivity).
  lia.
Qed.

Lemma splice_nil (t : text) : splice t [] = t.
Proof. reflexivity. Qed.

(** The runs of a scanned text are ordered within it. *)
Lemma group_runs_ordered (any_ : bool) (t : text) :
  ordered_groups 0 (length t) (group_runs any_ t (scan_items t)).
Proof.
  apply (grouped_ordered any_ t (length t) (scan_items t)).
  - apply group_runs_grouped.
  - apply scan_items_ordered.
Qed.

(** ** Consequences for the whole round *)







(** The text after the round is the splice of the runs found, whether or
    not there are any. *)
Lemma output_splice (any_ : bool) (t : text) :
  output any_ t = splice t (group_runs any_ t (scan_items t)).
Proof.
  unfold output, normalize.
  destruct (scan_items t) as [|it items]; [reflexivity|].
  destruct (group_runs any_ t (it :: items)); reflexivity.
Qed.

Lemma splice_from_app (t : text) (g : group) (gs2 : list group) :
  forall gs1 p,
    splice_from t p (gs1 ++ g :: gs2) =
    splice_upto t p gs1 (g_start g) ++
    build_items (g_indent g) (g_vt g) ++
    splice_from t (g_end g) gs2.
Proof.
  induction gs1 as [|g1 gs1 IH]; intros p; simpl; [reflexivity|].
  rewrite IH, <- !app_assoc. reflexivity.
Qed.

(** After a run the loop copies the text up to the next run. *)
Lemma splice_from_head (t : text) (groups : list group) (p : nat) :
  exists tail,
    splice_from t p groups = slice t p (next_start t groups) ++ tail.
Proof.
  destruct groups as [|g groups]; simpl.
  - exists []. rewrite app_nil_r. unfold slice_from, slice.
    symmetry; apply firstn_all2. rewrite length_skipn; lia.
  - eexists; reflexivity.
Qed.

Lemma build_items_lines (indent vtype : text) :
  build_items indent vtype =
  indented indent (block_lines vtype (lit "25")) ++
  indented indent (block_lines vtype (lit "50")) ++
  indented indent (block_lines vtype (lit "75")) ++
  indented indent (block_lines vtype (lit "100")).
Proof.
  unfold build_items, indented, block_lines, item_block.
  cbn [map concat]. change (str_nat 25) with (lit "25").
  change (str_nat 50) with (lit "50"). change (str_nat 75) with (lit "75").
  change (str_nat 100) with (lit "100").
  repeat rewrite <- app_assoc. rewrite !app_nil_r. reflexivity.
Qed.
Lemma run_members_last_start (t vt : text) (hi : nat) (rest' : list item) :
  forall e0 taken e,
    run_members t vt e0 taken e ->
    forall it0, e0 = i_end it0 -> i_start it0 < i_end it0 ->
    ordered_items e0 hi (taken ++ rest') ->
    i_start it0 <= i_start (last (it0 :: taken) it0).
Proof.
  induction 1 as [e0 | e0 it taken e Hs Hb M IH]; intros it0 H0 Hlt O.
  - simpl; lia.
  - simpl in O. destruct O as (O1 & O2 & O3 & O4).
    change (last (it0 :: it :: taken) it0) with (last (it :: taken) it0).
    rewrite (last_cons_default taken it it0 it).
    specialize (IH it eq_refl O2 O4). lia.
Qed.

(** A run of ordered blocks ends with a block that starts within it. *)
Lemma grouped_last_block (any_ : bool) (t : text) (hi : nat) :
  forall items groups,
    grouped any_ t items groups ->
    forall lo, ordered_items lo hi items ->
    forall g, In g groups ->
    exists last_it,
      In last_it items /\ g_end g = i_end last_it /\
      g_start g <= i_start last_it.
Proof.
  induction 1 as [| it items groups Hq G IH
                  | it v taken rest' e groups Hv Hq M S G IH]; intros lo O g Hg.
  - destruct Hg.
  - simpl in O. destruct O as (A & B & C & D).
    destruct (IH _ D g Hg) as (l' & I1 & R).
    exists l'; split; [right; exact I1 | exact R].
  - simpl in O. destruct O as (A & B & C & D).
    destruct (run_members_ordered _ _ _ _ _ _ _ M D C) as (E1 & E2 & E3).
    destruct Hg as [<-|Hg].
    + exists (last (it :: taken) it). cbn [g_start g_end]. repeat split.
      * destruct (last_cons_in taken it it) as [Hin|Hin];
          [left; exact Hin | right].
        apply in_or_app; left; exact Hin.
      * apply (run_members_last _ _ _ _ _ M); reflexivity.
      * apply (run_members_last_start _ _ hi rest' _ _ _ M); auto.
    + destruct (IH _ E3 g Hg) as (l' & I1 & R).
      exists l'; split; [right; apply in_or_app; right; exact I1 | exact R].
Qed.

(** A scanned block is at least as long as its closing tag. *)
Lemma scan_items_span (t : text) (it : item) :
  In it (scan_items t) -> i_start it + 7 <= i_end it.
Proof.
  intros Hin. destruct (scan_items_sound t it Hin) as ((_ & tag & attrs & inner & close & _ & P & _ & _ & _ & _ & Hc) & _).
  destruct Hc as [Lc _]. change (length (lit "</Item>")) with 7 in Lc.
  rewrite P, !length_app, Lc. lia.
Qed.

(** ** Scanning a text of known shape *)

Lemma no_start_app (s w w' l : text) :
  no_start s w (w' ++ l) -> no_start s w' l -> no_start s (w ++ w') l.
Proof.
  induction w as [|x w IH]; simpl; [auto|].
  intros [H1 H2] H3. rewrite <- app_assoc. split; [exact H1 | auto].
Qed.

(** A stretch without the first character of the literal holds no start
    of it. *)
Lemma no_start_free (a : ascii) (s w l : text) :
  Forall (fun x => ci a x = false) w -> no_start (a :: s) w l.
Proof.
  induction 1 as [|x w Hx Hw IH]; simpl; [exact I|].
  rewrite Hx. split; [reflexivity | exact IH].
Qed.

Lemma find_ci_no_start (s w l : text) :
  no_start s w l ->
  find_ci s (w ++ l) = option_map (Nat.add (length w)) (find_ci s l).
Proof.
  induction w as [|x w IH]; intros H.
  - simpl. destruct (find_ci s l); reflexivity.
  - destruct H as [H1 H2]. cbn [app find_ci]. rewrite H1, (IH H2).
    destruct (find_ci s l); reflexivity.
Qed.

(** The first occurrence lies just after a stretch that holds no start. *)
Lemma find_ci_first (s w l : text) :
  no_start s w l -> starts_ci s l = true ->
  find_ci s (w ++ l) = Some (length w).
Proof.
  intros H Hl. rewrite (find_ci_no_start _ _ _ H).
  destruct l; simpl in *; rewrite Hl; simpl; f_equal; lia.
Qed.

Lemma search_from_here (r : regex) (n : nat) (pv : option ascii) (l : text)
    (c' : cursor) :
  match_at r n pv l = Some c' -> search_from r n pv l = Some (n, c').
Proof. intros H; destruct l; simpl; rewrite H; reflexivity. Qed.

Lemma match_at_TYPE_RE_fails (n : nat) (pv : option ascii) (l : text) :
  starts_ci (lit "<type>") l = false -> match_at TYPE_RE n pv l = None.
Proof.
  intros H. unfold match_at, TYPE_RE. cbn [run]. rewrite run_lit_ci.
  cbn [rest]. rewrite H. reflexivity.
Qed.

(** The search for a type passes over a stretch that holds no start of
    the opening type tag. *)
Lemma search_TYPE_RE_skip (w l : text) :
  forall n pv,
    no_start (lit "<type>") w l ->
    search_from TYPE_RE n pv (w ++ l) =
    search_from TYPE_RE (n + length w) (last_or pv w) l.
Proof.
  induction w as [|x w IH]; intros n pv H.
  - simpl. rewrite Nat.add_0_r. reflexivity.
  - destruct H as [H1 H2]. cbn [app search_from].
    rewrite (match_at_TYPE_RE_fails _ _ _ H1), (IH _ _ H2).
    cbn [length]. f_equal. lia.
Qed.
Lemma lstrip_length (s : text) : length (lstrip s) <= length s.
Proof.
  induction s as [|c s IH]; simpl; [lia|].
  destruct (is_space c); simpl; lia.
Qed.

Lemma strip_length (s : text) : length (strip s) <= length (lstrip s).
Proof.
  unfold strip, rstrip. rewrite length_rev.
  pose proof (lstrip_length (rev (lstrip s))) as H.
  rewrite length_rev in H. exact H.
Qed.

(** A trimmed text does not begin with whitespace. *)
Lemma strip_fixed_first (a : ascii) (v : text) :
  strip (a :: v) = a :: v -> is_space a = false.
Proof.
  intros H. destruct (is_space a) eqn:Ha; [|reflexivity]. exfalso.
  pose proof (strip_length (a :: v)) as L. rewrite H in L.
  simpl in L. rewrite Ha in L.
  pose proof (lstrip_length v). lia.
Qed.

Lemma not_lt_class (x : ascii) :
  x <> "<"%char -> not_char "<"%char x = true.
Proof.
  intros H. unfold not_char. destruct (Ascii.eqb x "<") eqn:E; [|reflexivity].
  apply Ascii.eqb_eq in E. contradiction.
Qed.

(** [TYPE_RE] at an opening type tag followed by a trimmed type without
    [<] and the closing type tag: group 1 is the type. *)
Lemma match_at_TYPE_RE_here (n : nat) (pv : option ascii) (a : ascii)
    (v l : text) :
  is_space a = false ->
  Forall (fun x => x <> "<"%char) (a :: v) ->
  match_at TYPE_RE n pv (lit "<type>" ++ (a :: v) ++ lit "</type>" ++ l) =
  Some (Cur (n + 6 + length (a :: v) + 7) (Some ">"%char) l
            [(1, (n + 6, n + 6 + length (a :: v)))]).
Proof.
  intros Ha Hv. inversion Hv as [|? ? Hna Hnv]; subst.
  unfold match_at, TYPE_RE. cbn [run]. rewrite run_lit_ci.
  cbn [rest]. rewrite (starts_ci_app (lit "<type>") (lit "<type>") _ eq_refl).
  rewrite (advance_app n pv (lit "<type>")) by reflexivity.
  cbn [pos prev caps rest].
  apply rep_greedy_first.
  cbn [app takewhile]. rewrite Ha. cbn [length]. rewrite advance_0.
  cbn [rest pos prev caps]. rewrite (not_lt_class _ Hna).
  apply rep_greedy_first.
  rewrite (takewhile_app_stop (not_char "<"%char) v (lit "</type>" ++ l)).
  2:{ revert Hnv. apply Forall_impl. intros x; apply not_lt_class. }
  2:{ reflexivity. }
  rewrite (advance_app _ _ v) by reflexivity.
  cbn [set_cap pos prev rest caps].
  apply rep_greedy_first.
  change (takewhile is_space (lit "</type>" ++ l)) with (@nil ascii).
  cbn [length]. rewrite advance_0, run_lit_ci. cbn [rest].
  rewrite (starts_ci_app (lit "</type>") (lit "</type>") _ eq_refl).
  rewrite (advance_app _ _ (lit "</type>")) by reflexivity.
  change (length (lit "<type>")) with 6.
  change (length (lit "</type>")) with 7.
  change (last_or (last_or (Some a) v) (lit "</type>")) with (Some ">"%char).
  cbn [length]. do 2 f_equal; [lia|]. do 3 f_equal. lia.
Qed.

(** The type read in a text that holds, after a stretch without an opening
    type tag, a trimmed type without [<] between its tags. *)
Lemma item_type_found (w v l : text) :
  no_start (lit "<type>") w (lit "<type>" ++ v ++ lit "</type>" ++ l) ->
  v <> [] -> strip v = v -> Forall (fun x => x <> "<"%char) v ->
  item_type (w ++ lit "<type>" ++ v ++ lit "</type>" ++ l) = Some v.
Proof.
  intros Hw Hne Hs Hv. destruct v as [|a v]; [congruence|].
  unfold item_type, search.
  rewrite (search_TYPE_RE_skip _ _ _ _ Hw).
  rewrite (search_from_here _ _ _ _ _
             (match_at_TYPE_RE_here _ _ a v l (strip_fixed_first _ _ Hs) Hv)).
  cbn [pos caps]. unfold m_group. cbn [m_caps cap_lookup Nat.eqb].
  f_equal. etransitivity; [|exact Hs]. f_equal.
  replace (w ++ lit "<type>" ++ (a :: v) ++ lit "</type>" ++ l)
    with ((w ++ lit "<type>") ++ (a :: v) ++ lit "</type>" ++ l)
    by (rewrite <- app_assoc; reflexivity).
  replace (0 + length w + 6) with (length (w ++ lit "<type>"))
    by (rewrite length_app; simpl; lia).
  rewrite slice_app_skip. apply firstn_app_len.
Qed.

(** No match of [ITEM_RE] begins after a character other than a line
    feed. *)
Lemma finditer_ITEM_RE_newline (fuel e : nat) (l : text) :
  finditer_from fuel ITEM_RE e (Some ">"%char) ("010"%char :: l) =
  finditer_from fuel ITEM_RE (S e) (Some "010"%char) l.
Proof.
  destruct fuel as [|fuel]; [reflexivity|].
  cbn [finditer_from search_from]. unfold match_at at 1.
  rewrite run_ITEM_RE. reflexivity.
Qed.

Lemma last_or_snoc_nl (d : option ascii) (w : text) :
  last_or d (w ++ nl) = Some "010"%char.
Proof. rewrite last_or_app. reflexivity. Qed.

(** One block at the start of a line, closed at the end of its line: the
    scanner yields it and goes on from the next line. *)
Lemma scan_block_step (T : text) (n : nat) (indent inner rest' : text)
    (fuel : nat) :
  line_start T n ->
  skipn n T = indent ++ lit "<Item>" ++ inner ++ lit "</Item>" ++ nl ++ rest' ->
  Forall (fun x => is_blank x = true) indent ->
  no_start (lit "</Item>") inner (lit "</Item>" ++ nl ++ rest') ->
  map (scan_one T)
      (finditer_from (S fuel) ITEM_RE n (prev_at T n) (skipn n T)) =
  Item n (n + length indent + 6 + length inner + 7) indent (item_type inner) ::
  map (scan_one T)
      (finditer_from fuel ITEM_RE
         (S (n + length indent + 6 + length inner + 7))
         (prev_at T (S (n + length indent + 6 + length inner + 7)))
         (skipn (S (n + length indent + 6 + length inner + 7)) T)).
Proof.
  intros Hls E Hi Hno.
  assert (Hat : item_at (Cur n (prev_at T n) (skipn n T) []) =
                Some (Cur (n + length indent + 5 + 0 + 1 + length inner + 7)
                       (Some ">"%char)
                       (skipn (length inner + 7)
                          (inner ++ lit "</Item>" ++ nl ++ rest'))
                       [(2, (n + length indent + 5 + 0 + 1,
                             n + length indent + 5 + 0 + 1 + length inner));
                        (1, (n, n + length indent))])).
  { rewrite E.
    apply (item_at_open n (prev_at T n) [] indent (lit "<Item") []
             (inner ++ lit "</Item>" ++ nl ++ rest') (length inner)).
    - apply at_bol_spec. exact Hls.
    - exact Hi.
    - split; reflexivity.
    - constructor.
    - exact I.
    - apply find_ci_first; [exact Hno | reflexivity]. }
  set (e := n + length indent + 6 + length inner + 7).
  replace (n + length indent + 5 + 0 + 1 + length inner + 7) with e in Hat
    by (unfold e; lia).
  replace (skipn (length inner + 7) (inner ++ lit "</Item>" ++ nl ++ rest'))
    with (nl ++ rest') in Hat.
  2:{ replace (length inner + 7) with (length (inner ++ lit "</Item>"))
        by (rewrite length_app; reflexivity).
      rewrite (app_assoc inner). symmetry; apply skipn_app_len. }
  assert (Hm : match_at ITEM_RE n (prev_at T n) (skipn n T) = Some
                 (Cur e (Some ">"%char) (nl ++ rest')
                   [(2, (n + length indent + 5 + 0 + 1,
                         n + length indent + 5 + 0 + 1 + length inner));
                    (1, (n, n + length indent))])).
  { unfold match_at. rewrite run_ITEM_RE. exact Hat. }
  cbn [finditer_from]. rewrite (search_from_here _ _ _ _ _ Hm).
  cbn [pos prev rest caps].
  replace (e =? n) with false by (symmetry; apply Nat.eqb_neq; unfold e; lia).
  cbn [map]. f_equal.
  - unfold scan_one, item_type, m_group.
    cbn [m_start m_end m_caps cap_lookup Nat.eqb].
    rewrite (slice_of_skipn _ _ _ _ E).
    assert (E2 : skipn (n + length indent + 5 + 0 + 1) T =
                 inner ++ lit "</Item>" ++ nl ++ rest').
    { replace (n + length indent + 5 + 0 + 1)
        with (n + length (indent ++ lit "<Item>"))
        by (rewrite length_app; simpl; lia).
      apply skipn_walk. rewrite <- app_assoc. exact E. }
    rewrite (slice_of_skipn _ _ _ _ E2). reflexivity.
  - unfold nl at 1. cbn [app]. rewrite finditer_ITEM_RE_newline.
    assert (E3 : skipn n T =
                 (indent ++ lit "<Item>" ++ inner ++ lit "</Item>" ++ nl) ++ rest')
      by (rewrite E; repeat rewrite <- app_assoc; reflexivity).
    destruct (prev_at_walk _ _ _ _ E3) as [P3 S3].
    replace (n + length (indent ++ lit "<Item>" ++ inner ++ lit "</Item>" ++ nl))
      with (S e) in P3, S3
      by (unfold e; rewrite !length_app; simpl; lia).
    rewrite S3, P3.
    rewrite !app_assoc. rewrite last_or_snoc_nl. reflexivity.
Qed.

Lemma search_ITEM_RE_newlines (k : nat) :
  forall n pv, search_from ITEM_RE n pv (repeat "010"%char k) = None.
Proof.
  induction k as [|k IH]; intros n pv; cbn [repeat search_from];
    unfold match_at; rewrite run_ITEM_RE; unfold item_at, item_tag;
    destruct (at_bol _); try reflexivity; apply IH.
Qed.

(** Nothing is left to scan in a run of line feeds. *)
Lemma finditer_ITEM_RE_newlines (fuel k n : nat) (pv : option ascii) :
  finditer_from fuel ITEM_RE n pv (repeat "010"%char k) = [].
Proof.
  destruct fuel; [reflexivity|]. cbn [finditer_from].
  rewrite search_ITEM_RE_newlines. reflexivity.
Qed.

Lemma no_start_seg (a : ascii) (s seg w l : text) :
  Forall (fun x => ci a x = false) seg ->
  no_start (a :: s) w l -> no_start (a :: s) (seg ++ w) l.
Proof.
  intros H1 H2. apply no_start_app; [apply no_start_free; exact H1 | exact H2].
Qed.

Lemma blank_no_lt (indent : text) :
  Forall (fun x => is_blank x = true) indent ->
  Forall (fun x => ci "<"%char x = false) indent.
Proof. apply Forall_impl. intros x; apply blank_not_lt. Qed.

Lemma not_lt_no_lt (v : text) :
  Forall (fun x => x <> "<"%char) v ->
  Forall (fun x => ci "<"%char x = false) v.
Proof.
  apply Forall_impl. intros x H. rewrite ci_lt.
  destruct (Ascii.eqb x "<") eqn:E; [|reflexivity].
  apply Ascii.eqb_eq in E; contradiction.
Qed.

Ltac no_start_steps :=
  repeat (cbn [app lit list_ascii_of_string nl dq no_start];
          first [ exact I
                | split; [reflexivity|]
                | apply no_start_seg; [assumption|]
                | apply no_start_free; assumption ]).

Lemma block_inner_split (indent vtype : text) (val : nat) :
  block_inner indent vtype val =
  block_pre indent val ++ lit "<type>" ++ vtype ++ lit "</type>" ++ nl ++ indent.
Proof.
  unfold block_inner, block_pre. repeat rewrite <- app_assoc. reflexivity.
Qed.

(** No closing item tag begins within the inner text of a rendered
    block. *)
Lemma block_inner_no_close (indent vtype l : text) (val : nat) :
  In val [25; 50; 75; 100] ->
  Forall (fun x => is_blank x = true) indent ->
  Forall (fun x => x <> "<"%char) vtype ->
  no_start (lit "</Item>") (block_inner indent vtype val) (lit "</Item>" ++ l).
Proof.
  intros Hval Hi Hv. apply blank_no_lt in Hi. apply not_lt_no_lt in Hv.
  unfold block_inner.
  destruct Hval as [<-|[<-|[<-|[<-|[]]]]];
    [change (str_nat 25) with (lit "25") | change (str_nat 50) with (lit "50")
    |change (str_nat 75) with (lit "75") | change (str_nat 100) with (lit "100")];
    no_start_steps.
Qed.

(** No opening type tag begins before the one of a rendered block. *)
Lemma block_pre_no_type (indent l : text) (val : nat) :
  In val [25; 50; 75; 100] ->
  Forall (fun x => is_blank x = true) indent ->
  no_start (lit "<type>") (block_pre indent val) (lit "<type>" ++ l).
Proof.
  intros Hval Hi. apply blank_no_lt in Hi.
  unfold block_pre.
  destruct Hval as [<-|[<-|[<-|[<-|[]]]]];
    [change (str_nat 25) with (lit "25") | change (str_nat 50) with (lit "50")
    |change (str_nat 75) with (lit "75") | change (str_nat 100) with (lit "100")];
    no_start_steps.
Qed.
Lemma item_block_body (indent vtype : text) (val : nat) :
  item_block indent vtype val = block_body indent vtype val ++ nl.
Proof.
  unfold item_block, block_body, block_inner.
  repeat rewrite <- app_assoc. reflexivity.
Qed.

Lemma block_body_length (indent vtype : text) (val : nat) :
  length (block_body indent vtype val) =
  length indent + 6 + length (block_inner indent vtype val) + 7.
Proof. unfold block_body. rewrite !length_app. simpl. lia. Qed.

(** The scanner reads the rendered type back. *)
Lemma block_inner_type (indent vtype : text) (val : nat) :
  In val [25; 50; 75; 100] ->
  Forall (fun x => is_blank x = true) indent ->
  vtype <> [] -> strip vtype = vtype ->
  Forall (fun x => x <> "<"%char) vtype ->
  item_type (block_inner indent vtype val) = Some vtype.
Proof.
  intros Hval Hi Hne Hs Hv. rewrite block_inner_split.
  apply item_type_found; try assumption.
  apply block_pre_no_type; assumption.
Qed.

Section Rendered.

Variables indent vtype : text.
Hypothesis Hindent : Forall (fun x => is_blank x = true) indent.
Hypothesis Hne : vtype <> [].
Hypothesis Hstrip : strip vtype = vtype.
Hypothesis Hlt : Forall (fun x => x <> "<"%char) vtype.

(** Rendered blocks followed by line feeds are scanned block by block. *)
Lemma scan_rendered_blocks (T : text) (k : nat) :
  forall vals n fuel,
    incl vals [25; 50; 75; 100] ->
    line_start T n ->
    skipn n T =
      concat (map (item_block indent vtype) vals) ++ repeat "010"%char k ->
    length vals <= fuel ->
    map (scan_one T) (finditer_from fuel ITEM_RE n (prev_at T n) (skipn n T)) =
    block_items indent vtype n vals.
Proof.
  induction vals as [|val vals IH]; intros n fuel Hin Hls E Hf.
  - rewrite E. cbn [map concat app].
    rewrite finditer_ITEM_RE_newlines. reflexivity.
  - destruct fuel as [|fuel]; [simpl in Hf; lia|].
    assert (Hval : In val [25; 50; 75; 100]) by (apply Hin; left; reflexivity).
    assert (E1 : skipn n T =
                 indent ++ lit "<Item>" ++ block_inner indent vtype val ++
                 lit "</Item>" ++ nl ++
                 (concat (map (item_block indent vtype) vals) ++
                  repeat "010"%char k)).
    { rewrite E. cbn [map concat]. rewrite item_block_body.
      unfold block_body. repeat rewrite <- app_assoc. reflexivity. }
    rewrite (scan_block_step T n indent (block_inner indent vtype val) _ fuel
               Hls E1 Hindent
               (block_inner_no_close indent vtype _ val Hval Hindent Hlt)).
    rewrite (block_inner_type indent vtype val Hval Hindent Hne Hstrip Hlt).
    replace (n + length indent + 6 + length (block_inner indent vtype val) + 7)
      with (n + length (block_body indent vtype val))
      by (rewrite block_body_length; lia).
    cbn [block_items]. f_equal.
    assert (E2 : skipn n T =
                 (block_body indent vtype val ++ nl) ++
                 (concat (map (item_block indent vtype) vals) ++
                  repeat "010"%char k)).
    { rewrite E1. unfold block_body. repeat rewrite <- app_assoc. reflexivity. }
    destruct (prev_at_walk _ _ _ _ E2) as [P2 S2].
    replace (n + length (block_body indent vtype val ++ nl))
      with (S (n + length (block_body indent vtype val))) in P2, S2
      by (rewrite length_app; simpl; lia).
    apply IH.
    + intros x Hx; apply Hin; right; exact Hx.
    + right. rewrite P2. apply last_or_snoc_nl.
    + exact S2.
    + simpl in Hf; lia.
Qed.

Hypothesis Hupper : upper vtype = vtype.

(** The inner loop takes every rendered block that follows. *)
Lemma extend_rendered (T tail : text) :
  forall vals e,
    skipn e T =
      nl ++ concat (map (item_block indent vtype) vals) ++ tail ->
    exists e',
      extend T vtype e (block_items indent vtype (S e) vals) = (e', []) /\
      skipn e' T = nl ++ tail.
Proof.
  induction vals as [|val vals IH]; intros e E.
  - exists e. split; [reflexivity | exact E].
  - cbn [block_items extend].
    assert (Hc : continues T vtype e
                   (Item (S e) (S e + length (block_body indent vtype val))
                         indent (Some vtype)) = true).
    { apply (continues_spec _ _ _ _ Hne). split.
      - exists vtype. split; [reflexivity|]. rewrite Hstrip. exact Hupper.
      - unfold blank_gap. cbn [i_start].
        replace (S e) with (e + length nl) by (simpl; lia).
        rewrite (slice_of_skipn _ _ _ _ E).
        repeat constructor. }
    rewrite Hc. cbn [i_end]. apply IH.
    replace (S e + length (block_body indent vtype val))
      with (e + length (nl ++ block_body indent vtype val))
      by (rewrite length_app; simpl; lia).
    apply skipn_walk. rewrite E. cbn [map concat].
    rewrite item_block_body. repeat rewrite <- app_assoc. reflexivity.
Qed.

Variable any_ : bool.
Hypothesis Hq : qualifies any_ (Some vtype) = true.

(** A round on the rendering of a run, followed by line feeds. *)
Lemma normalize_rendered (k : nat) :
  normalize any_ (build_items indent vtype ++ repeat "010"%char k) =
  Replaced (build_items indent vtype ++ repeat "010"%char (S k)) 1.
Proof.
  set (T := build_items indent vtype ++ repeat "010"%char k).
  assert (Hscan : scan_items T = block_items indent vtype 0 [25; 50; 75; 100]).
  { unfold scan_items, finditer.
    apply (scan_rendered_blocks T k [25; 50; 75; 100] 0 (S (length T))).
    - apply incl_refl.
    - left; reflexivity.
    - reflexivity.
    - unfold T, build_items. cbn [map concat].
      rewrite !item_block_body, !length_app. simpl. lia. }
  assert (E1 : skipn (0 + length (block_body indent vtype 25)) T =
               nl ++ concat (map (item_block indent vtype) [50; 75; 100]) ++
               repeat "010"%char k).
  { apply skipn_walk. unfold T, build_items. cbn [map concat skipn].
    rewrite !item_block_body. repeat rewrite <- app_assoc. reflexivity. }
  destruct (extend_rendered T _ _ _ E1) as (e' & He & Hs).
  unfold normalize. rewrite Hscan.
  change (block_items indent vtype 0 [25; 50; 75; 100])
    with (Item 0 (0 + length (block_body indent vtype 25)) indent (Some vtype) ::
          block_items indent vtype
            (S (0 + length (block_body indent vtype 25))) [50; 75; 100]).
  cbv beta iota. rewrite group_runs_cons. cbn [i_vtype i_start i_end i_indent].
  rewrite Hq. cbv zeta. rewrite Hupper, He. cbn [fst snd].
  change (group_runs any_ T []) with (@nil group).
  cbn [length]. f_equal.
  unfold splice. cbn [splice_from g_start g_end g_indent g_vt].
  unfold slice_from. rewrite Hs. unfold slice. cbn [Nat.sub firstn app].
  reflexivity.
Qed.

End Rendered.

(** * The properties of the specification *)




(** C2: every character of the text at an offset outside all replaced
    spans is in the output, at the offset that the kept text and the
    replacements before it give; the spans are ordered within the text, as
    the runs of the grouping loop are.  With no run, the output is the
    text. *)
Theorem splice_preserves_outside (t : text) (groups : list group) (i : nat) :
  ordered_groups 0 (length t) groups ->
  i < length t -> outside groups i ->
  nth_error (splice t groups) (out_pos groups i) = nth_error t i /\
  splice t [] = t.
Proof.
  intros O Hi Hout. split; [|reflexivity].
  apply splice_from_preserves; [exact O | lia | exact Hi | exact Hout].
Qed.

Lemma splice_preserves_outside_witness :
  nth_error
    (splice scenario_C (group_runs false scenario_C (scan_items scenario_C)))
    (out_pos (group_runs false scenario_C (scan_items scenario_C)) 100) =
  nth_error scenario_C 100 /\
  splice scenario_C [] = scenario_C.
Proof.
  apply splice_preserves_outside.
  - apply group_runs_ordered.
  - vm_compute. lia.
  - assert (F : forallb (fun g => (100 <? g_start g) || (g_end g <=? 100))
                  (group_runs false scenario_C (scan_items scenario_C)) = true)
      by (vm_compute; reflexivity).
    rewrite forallb_forall in F. intros g Hg. specialize (F g Hg).
    apply orb_true_iff in F. rewrite Nat.ltb_lt, Nat.leb_le in F. lia.
Defined.

(** C8: the runs of a text are in ascending order, each starts at or after
    the end of the one before and is not empty, all lie within the text, and
    their starts are starts of scanned blocks, in the order of the blocks. *)
Theorem runs_ordered_in_bounds (any_ : bool) (t : text) :
  ordered_groups 0 (length t) (group_runs any_ t (scan_items t)) /\
  subseq (map g_start (group_runs any_ t (scan_items t)))
         (map i_start (scan_items t)).
Proof.
  split; [apply group_runs_ordered|].
  apply (grouped_subseq any_ t). apply group_runs_grouped.
Qed.

(** C9: two rounds on the same text under the same policy give the same
    new text and the same count of runs. *)
Theorem normalize_deterministic (any1 any2 : bool) (t1 t2 : text) :
  any1 = any2 -> t1 = t2 ->
  normalize any1 t1 = normalize any2 t2 /\ output any1 t1 = output any2 t2.
Proof. intros -> ->. split; reflexivity. Qed.

Lemma normalize_deterministic_witness :
  normalize false scenario_B = normalize false scenario_B /\
  output false scenario_B = output false scenario_B.
Proof. apply normalize_deterministic; reflexivity. Defined.





(** C4: [build_items] depends on nothing but its two arguments, and its
    result is four blocks, for the modifier values 25, 50, 75 and 100 in this
    order; each block is the same seven lines, every one after the given
    indentation and ended by a line feed: the opening tag, the empty
    identifier, the modifier value, the audio-apply value 1.000000, the
    weight 0, the given type between its tags, and the closing tag. *)
Theorem build_items_four_blocks (indent vtype indent' vtype' : text) :
  indent = indent' -> vtype = vtype' ->
  build_items indent vtype = build_items indent' vtype' /\
  build_items indent vtype =
    indented indent (block_lines vtype (lit "25")) ++
    indented indent (block_lines vtype (lit "50")) ++
    indented indent (block_lines vtype (lit "75")) ++
    indented indent (block_lines vtype (lit "100")).
Proof.
  intros <- <-. split; [reflexivity | apply build_items_lines].
Qed.

Lemma build_items_four_blocks_witness :
  build_items (lit "  ") (lit "VMT_ENGINE") =
  build_items (lit "  ") (lit "VMT_ENGINE") /\
  build_items (lit "  ") (lit "VMT_ENGINE") =
    indented (lit "  ") (block_lines (lit "VMT_ENGINE") (lit "25")) ++
    indented (lit "  ") (block_lines (lit "VMT_ENGINE") (lit "50")) ++
    indented (lit "  ") (block_lines (lit "VMT_ENGINE") (lit "75")) ++
    indented (lit "  ") (block_lines (lit "VMT_ENGINE") (lit "100")).
Proof. apply build_items_four_blocks; reflexivity. Defined.




(** C10: the span of a run ends with the closing tag of its last block,
    the text that replaces it ends with a closing tag and a line feed, and
    in the output the replacement is followed by the text that followed the
    span, up to the next run: whatever followed the run in the text now
    follows one more line feed. *)
Theorem replacement_adds_one_newline
    (any_ : bool) (t : text) (gs1 : list group) (g : group) (gs2 : list group) :
  group_runs any_ t (scan_items t) = gs1 ++ g :: gs2 ->
  (exists close,
     ci_text (lit "</Item>") close /\
     slice t (g_end g - 7) (g_end g) = close /\ g_start g + 7 <= g_end g) /\
  (exists body,
     build_items (g_indent g) (g_vt g) = body ++ lit "</Item>" ++ nl) /\
  (exists tail,
     output any_ t =
       splice_upto t 0 gs1 (g_start g) ++
       build_items (g_indent g) (g_vt g) ++
       slice t (g_end g) (next_start t gs2) ++ tail).
Proof.
  intros E.
  assert (Hg : In g (group_runs any_ t (scan_items t)))
    by (rewrite E; apply in_or_app; right; left; reflexivity).
  split; [|split].
  - destruct (grouped_last_block any_ t (length t) _ _
                (group_runs_grouped any_ t (scan_items t)) 0
                (scan_items_ordered t) g Hg) as (l' & Hl & He & Hs).
    destruct (scan_items_sound t l' Hl) as (_ & close & Hc & Hsl).
    pose proof (scan_items_span t l' Hl) as Hsp.
    exists close. rewrite He. repeat split; try apply Hc; try exact Hsl.
    lia.
  - unfold build_items. cbn [map concat]. rewrite app_nil_r.
    unfold item_block at 4.
    eexists. repeat rewrite app_assoc. reflexivity.
  - destruct (splice_from_head t gs2 (g_end g)) as (tail & Ht).
    exists tail. rewrite output_splice, E. unfold splice.
    rewrite splice_from_app, Ht. reflexivity.
Qed.

Lemma replacement_adds_one_newline_witness :
  (exists close,
     ci_text (lit "</Item>") close /\
     slice mixed_case_text (55 - 7) 55 = close /\ 7 + 7 <= 55) /\
  (exists body,
     build_items (lit "  ") (lit "VMT_BRAKES") = body ++ lit "</Item>" ++ nl) /\
  (exists tail,
     output false mixed_case_text =
       splice_upto mixed_case_text 0 [] 7 ++
       build_items (lit "  ") (lit "VMT_BRAKES") ++
       slice mixed_case_text 55 (next_start mixed_case_text []) ++ tail).
Proof.
  apply (replacement_adds_one_newline false mixed_case_text []
           (Group 7 55 (lit "  ") (lit "VMT_BRAKES")) []).
  vm_compute. reflexivity.
Defined.




(** * Further properties of the code *)






(** X2: a scanned block ends at the first closing item tag after its
    opening tag: the inner text that group 2 captures is followed at once by
    a closing tag, which ends the block, and no closing tag, in any letter
    case, begins inside it.  So a block that holds another item element ends
    with that element. *)
Theorem scanned_block_ends_at_first_close (t : text) (m : rmatch) :
  In m (finditer ITEM_RE t) ->
  exists a b,
    cap_lookup 2 (m_caps m) = Some (a, b) /\
    m_start m <= a /\ a <= b /\ b + 7 = m_end m /\
    starts_ci (lit "</Item>") (skipn b t) = true /\
    forall i, a <= i < b -> starts_ci (lit "</Item>") (skipn i t) = false.
Proof.
  intros Hm.
  destruct (finditer_spec ITEM_RE t min_len_ITEM_RE) as (O & S1 & _).
  destruct (S1 m Hm) as (c' & Hc & Hp & Hcaps).
  rewrite match_pos_ITEM_RE in Hc.
  destruct (item_at_inv _ _ Hc)
    as (_ & indent & tag & attrs & inner & close & E & P & _ & _ & _ & _ & Hcl
        & Hcs & Hmin).
  cbn [cursor_at rest pos caps] in *.
  assert (Lc : length close = 7) by (apply Hcl).
  set (a := m_start m + length (indent ++ tag ++ attrs) + 1) in *.
  assert (Ea : skipn a t = inner ++ close ++ rest c').
  { unfold a.
    replace (m_start m + length (indent ++ tag ++ attrs) + 1)
      with (m_start m + length (indent ++ tag ++ attrs ++ lit ">"))
      by (rewrite !length_app; simpl; lia).
    apply skipn_walk. rewrite E. repeat rewrite <- app_assoc. reflexivity. }
  exists a, (a + length inner).
  rewrite <- Hcaps, Hcs. cbn [cap_lookup Nat.eqb].
  repeat split; try lia.
  - rewrite <- Hp, P. unfold a. rewrite !length_app. simpl. lia.
  - rewrite (skipn_walk _ _ _ _ Ea). apply starts_ci_app. apply Hcl.
  - intros i [Hlo Hhi].
    replace i with (a + (i - a)) by lia.
    rewrite Nat.add_comm, <- skipn_skipn, Ea.
    apply Hmin. lia.
Qed.

Lemma scanned_block_ends_at_first_close_witness :
  exists a b,
    cap_lookup 2 [(2, (6, 35)); (1, (0, 0))] = Some (a, b) /\
    0 <= a /\ a <= b /\ b + 7 = 42 /\
    starts_ci (lit "</Item>") (skipn b nested_text) = true /\
    forall i, a <= i < b ->
      starts_ci (lit "</Item>") (skipn i nested_text) = false.
Proof.
  apply (scanned_block_ends_at_first_close nested_text
           (Match 0 42 [(2, (6, 35)); (1, (0, 0))])).
  vm_compute. left; reflexivity.
Defined.

Lemma lstrip_head (s : text) :
  match lstrip s with [] => True | x :: _ => is_space x = false end.
Proof.
  induction s as [|c s IH]; simpl; [exact I|].
  destruct (is_space c) eqn:E; [exact IH | exact E].
Qed.

Lemma lstrip_fixed (s : text) :
  match s with [] => True | x :: _ => is_space x = false end -> lstrip s = s.
Proof. destruct s as [|c s]; simpl; [auto | intros ->; reflexivity]. Qed.

Lemma lstrip_idem (s : text) : lstrip (lstrip s) = lstrip s.
Proof. apply lstrip_fixed, lstrip_head. Qed.

Lemma lstrip_suffix (s : text) : exists w, s = w ++ lstrip s.
Proof.
  induction s as [|c s (w & IH)]; simpl; [exists []; reflexivity|].
  destruct (is_space c).
  - exists (c :: w). simpl. f_equal. exact IH.
  - exists []. reflexivity.
Qed.

Lemma rstrip_prefix (s : text) : exists w, s = rstrip s ++ w.
Proof.
  unfold rstrip. destruct (lstrip_suffix (rev s)) as (w & E).
  exists (rev w). rewrite <- rev_app_distr, <- E, rev_involutive. reflexivity.
Qed.

Lemma rstrip_idem (s : text) : rstrip (rstrip s) = rstrip s.
Proof. unfold rstrip. rewrite rev_involutive, lstrip_idem. reflexivity. Qed.

(** Trimming a trimmed text changes nothing. *)
Lemma strip_idem (s : text) : strip (strip s) = strip s.
Proof.
  unfold strip.
  assert (H : lstrip (rstrip (lstrip s)) = rstrip (lstrip s)).
  { apply lstrip_fixed.
    destruct (rstrip_prefix (lstrip s)) as (w & E).
    pose proof (lstrip_head s) as Hh.
    destruct (rstrip (lstrip s)) as [|x r]; [exact I|].
    rewrite E in Hh. exact Hh. }
  rewrite H. apply rstrip_idem.
Qed.

(** The type of a scanned block is trimmed. *)
Lemma scan_items_stripped (t : text) (it : item) (v : text) :
  In it (scan_items t) -> i_vtype it = Some v -> strip v = v.
Proof.
  unfold scan_items. intros Hin Hv. apply in_map_iff in Hin as (m & <- & _).
  cbn [scan_one i_vtype] in Hv.
  destruct (search TYPE_RE (m_group t m 2)); [|discriminate].
  injection Hv as <-. apply strip_idem.
Qed.

Lemma ordered_items_in (hi : nat) (items : list item) :
  forall lo it, ordered_items lo hi items -> In it items ->
    lo <= i_start it /\ i_start it < i_end it /\ i_end it <= hi.
Proof.
  induction items as [|x items IH]; intros lo it O Hin; [destruct Hin|].
  simpl in O. destruct O as (A & B & C & D).
  destruct Hin as [<-|Hin]; [auto|].
  destruct (IH _ _ D Hin) as (E & F & G). repeat split; lia.
Qed.

Lemma ordered_groups_in (hi : nat) (groups : list group) :
  forall lo g, ordered_groups lo hi groups -> In g groups ->
    lo <= g_start g /\ g_start g < g_end g /\ g_end g <= hi.
Proof.
  induction groups as [|x groups IH]; intros lo g O Hin; [destruct Hin|].
  simpl in O. destruct O as (A & B & C & D).
  destruct Hin as [<-|Hin]; [auto|].
  destruct (IH _ _ D Hin) as (E & F & G). repeat split; lia.
Qed.

(** The blocks taken into a run lie within it and have its type. *)
Lemma run_members_inside (t vt : text) (hi : nat) (rest' : list item) :
  forall e0 taken e,
    run_members t vt e0 taken e ->
    ordered_items e0 hi (taken ++ rest') -> e0 <= hi ->
    forall it, In it taken ->
      e0 <= i_start it /\ i_end it <= e /\ same_type vt it.
Proof.
  induction 1 as [e0 | e0 x taken e Hs Hb M IH]; intros O H0 it Hin;
    [destruct Hin|].
  simpl in O. destruct O as (O1 & O2 & O3 & O4).
  destruct (run_members_ordered _ _ _ _ _ _ _ M O4 O3) as (E1 & _ & _).
  destruct Hin as [<-|Hin]; [auto|].
  destruct (IH O4 O3 it Hin) as (A & B & C). repeat split; auto; lia.
Qed.
(** Each block lies within a run, with the type of the run, or apart from
    it. *)
Lemma grouped_inside_or_apart (any_ : bool) (t : text) (hi : nat) :
  forall items groups,
    grouped any_ t items groups ->
    forall lo, ordered_items lo hi items ->
    forall g it, In g groups -> In it items ->
      (inside g it /\
       exists v, i_vtype it = Some v /\
                 (upper v = g_vt g \/ upper (strip v) = g_vt g)) \/
      apart g it.
Proof.
  induction 1 as [| it0 items groups Hq G IH
                  | it0 v taken rest' e groups Hv Hq M S G IH];
    intros lo O g it Hg Hit.
  - destruct Hg.
  - simpl in O. destruct O as (A & B & C & D).
    destruct Hit as [<-|Hit]; [|apply (IH _ D); assumption].
    right; left.
    pose proof (grouped_ordered any_ t hi _ _ G _ D) as OG.
    destruct (ordered_groups_in _ _ _ _ OG Hg) as (H1 & _). exact H1.
  - simpl in O. destruct O as (A & B & C & D).
    destruct (run_members_ordered _ _ _ _ _ _ _ M D C) as (E1 & E2 & E3).
    pose proof (grouped_ordered any_ t hi _ _ G _ E3) as OG.
    destruct Hg as [<-|Hg].
    + unfold inside, apart. cbn [g_start g_end g_vt].
      destruct Hit as [<-|Hit].
      * left. split; [lia|]. exists v. auto.
      * apply in_app_or in Hit as [Hit|Hit].
        -- destruct (run_members_inside _ _ _ _ _ _ _ M D C it Hit)
             as (I1 & I2 & (v2 & Hv2 & Hu)).
           left. split; [lia|]. exists v2. auto.
        -- right; right.
           destruct (ordered_items_in _ _ _ _ E3 Hit) as (I1 & _). exact I1.
    + destruct (ordered_groups_in _ _ _ _ OG Hg) as (H1 & _).
      destruct Hit as [<-|Hit].
      * right; left. lia.
      * apply in_app_or in Hit as [Hit|Hit].
        -- destruct (run_members_inside _ _ _ _ _ _ _ M D C it Hit)
             as (I1 & I2 & _).
           right; left. lia.
        -- apply (IH _ E3); assumption.
Qed.





Lemma search_TYPE_RE_none (l : text) :
  forall n pv,
    (forall i, starts_ci (lit "<type>") (skipn i l) = false) ->
    search_from TYPE_RE n pv l = None.
Proof.
  induction l as [|x l IH]; intros n pv H; cbn [search_from];
    rewrite (match_at_TYPE_RE_fails _ _ _ (H 0)); [reflexivity|].
  apply IH. intros i. exact (H (S i)).
Qed.

(** A text without an opening type tag has no type. *)
Lemma item_type_none (inner : text) :
  find_ci (lit "<type>") inner = None -> item_type inner = None.
Proof.
  intros H. unfold item_type, search.
  rewrite (search_TYPE_RE_none _ _ _ (find_ci_none _ _ H)). reflexivity.
Qed.

(** X5: a scanned block whose inner text holds no opening type tag, in any
    letter case, has no type, and its span meets no run: it is left as it
    is, and it ends the run before it. *)
Theorem untyped_block_is_never_replaced
    (any_ : bool) (t : text) (m : rmatch) (g : group) :
  In m (finditer ITEM_RE t) ->
  find_ci (lit "<type>") (m_group t m 2) = None ->
  In g (group_runs any_ t (scan_items t)) ->
  i_vtype (scan_one t m) = None /\ apart g (scan_one t m).
Proof.
  intros Hm Hf Hg.
  assert (Hv : i_vtype (scan_one t m) = None).
  { change (i_vtype (scan_one t m)) with (item_type (m_group t m 2)).
    apply item_type_none. exact Hf. }
  split; [exact Hv|].
  assert (Hit : In (scan_one t m) (scan_items t))
    by (unfold scan_items; apply in_map; exact Hm).
  destruct (grouped_inside_or_apart any_ t (length t) _ _
              (group_runs_grouped any_ t (scan_items t)) 0
              (scan_items_ordered t) g _ Hg Hit)
    as [(_ & v & Hv' & _)|Ha]; [congruence | exact Ha].
Qed.

Lemma untyped_block_is_never_replaced_witness :
  i_vtype (scan_one untyped_text (Match 47 90 [(2, (55, 83)); (1, (47, 49))]))
    = None /\
  apart (Group 0 46 (lit "  ") (lit "VMT_ENGINE"))
        (scan_one untyped_text (Match 47 90 [(2, (55, 83)); (1, (47, 49))])).
Proof.
  apply (untyped_block_is_never_replaced false).
  - vm_compute. right; left; reflexivity.
  - vm_compute. reflexivity.
  - vm_compute. left; reflexivity.
Defined.

Lemma qualifies_restricted (v : option text) :
  qualifies false v =
  qualifies true v &&
  in_targets (upper (match v with Some w => w | None => [] end)).
Proof.
  destruct v as [[|c w]|]; try reflexivity.
  unfold qualifies.
  destruct (startswith (lit "VMT_") (upper (c :: w))); cbn [negb andb];
    [|reflexivity].
  destruct (in_targets (upper (c :: w))); reflexivity.
Qed.

(** The loop passes over a stretch of blocks that do not qualify. *)
Lemma group_runs_skip_app (any_ : bool) (t : text) (taken rest' : list item) :
  (forall it, In it taken -> qualifies any_ (i_vtype it) = false) ->
  group_runs any_ t (taken ++ rest') = group_runs any_ t rest'.
Proof.
  induction taken as [|it taken IH]; intros H; [reflexivity|].
  cbn [app]. rewrite group_runs_cons, (H it (or_introl eq_refl)).
  apply IH. intros it' Hin; apply H; right; exact Hin.
Qed.

Lemma run_members_types (t vt : text) :
  forall e0 taken e,
    run_members t vt e0 taken e ->
    forall it, In it taken -> same_type vt it.
Proof.
  induction 1 as [e0 | e0 x taken e Hs Hb M IH]; intros it Hin;
    [destruct Hin|].
  destruct Hin as [<-|Hin]; auto.
Qed.

(** On blocks with trimmed types, the runs under the restricted policy
    are the runs under the any-type policy that have a target type. *)
Lemma group_runs_restricted (t : text) :
  forall n items,
    length items <= n ->
    (forall it v, In it items -> i_vtype it = Some v -> strip v = v) ->
    group_runs false t items =
    filter (fun g => in_targets (g_vt g)) (group_runs true t items).
Proof.
  induction n as [|n IH]; intros items Hn Hs.
  - destruct items; [reflexivity | simpl in Hn; lia].
  - destruct items as [|it items]; [reflexivity|].
    rewrite !group_runs_cons, qualifies_restricted.
    destruct (qualifies true (i_vtype it)) eqn:Hq; cbn [andb].
    + destruct (i_vtype it) as [v|] eqn:Hv; [|discriminate].
      cbv zeta.
      destruct (extend_spec t (upper v) (qualifies_nonempty _ _ Hq) items
                  (i_end it)) as (taken & E & M & _).
      pose proof (extend_length t (upper v) items (i_end it)) as L.
      assert (Hs' : forall it' v',
                 In it' (snd (extend t (upper v) (i_end it) items)) ->
                 i_vtype it' = Some v' -> strip v' = v').
      { intros it' v' Hin. apply Hs. right. rewrite E.
        apply in_or_app; right; exact Hin. }
      assert (Hn' : length (snd (extend t (upper v) (i_end it) items)) <= n)
        by (simpl in Hn; lia).
      destruct (in_targets (upper v)) eqn:Ht.
      * cbn [filter g_vt]. rewrite Ht. f_equal. apply IH; assumption.
      * cbn [filter g_vt]. rewrite Ht. rewrite <- (IH _ Hn' Hs').
        rewrite E at 1. apply group_runs_skip_app.
        intros it' Hin.
        destruct (run_members_types _ _ _ _ _ M it' Hin) as (v2 & Hv2 & Hu).
        rewrite qualifies_restricted, Hv2.
        rewrite (Hs it' v2) in Hu.
        -- rewrite Hu, Ht. apply andb_false_r.
        -- right. rewrite E. apply in_or_app; left; exact Hin.
        -- exact Hv2.
    + apply IH; [simpl in Hn; lia|].
      intros it' v' Hin. apply Hs. right; exact Hin.
Qed.

(** X6: the any-type policy only adds runs: the runs found under the
    restricted policy are exactly the runs found under the any-type policy
    whose type is one of the three target types, in the same order and with
    the same spans. *)
Theorem restricted_runs_are_target_runs_of_any (t : text) :
  group_runs false t (scan_items t) =
  filter (fun g => in_targets (g_vt g)) (group_runs true t (scan_items t)).
Proof.
  apply (group_runs_restricted t (length (scan_items t))); [lia|].
  intros it v. apply scan_items_stripped.
Qed.

(** ** [_human_size] *)

Lemma pow1024_succ (k : nat) :
  (1024 ^ N.of_nat (S k) = 1024 * 1024 ^ N.of_nat k)%N.
Proof. rewrite Nat2N.inj_succ. apply N.pow_succ_r'. Qed.

Lemma pow1024_pos (k : nat) : (0 < 1024 ^ N.of_nat k)%N.
Proof. apply N.neq_0_lt_0. apply N.pow_nonzero. discriminate. Qed.

Lemma pow1024_le (j k : nat) :
  j <= k -> (1024 ^ N.of_nat j <= 1024 ^ N.of_nat k)%N.
Proof. intros H. apply N.pow_le_mono_r; [discriminate | lia]. Qed.

(** The loop stops at the first unit whose bound exceeds the value. *)
Lemma human_size_from_unit (n : N) :
  forall j us k0 unit,
    nth_error us j = Some unit ->
    (j = 0 \/ (1024 ^ N.of_nat (k0 + j) <= n)%N) ->
    (n < 1024 ^ N.of_nat (S (k0 + j)))%N ->
    human_size_from us n k0 = fmt1 n (k0 + j) ++ lit " " ++ unit.
Proof.
  induction j as [|j IH]; intros us k0 unit Hu Hlo Hhi;
    destruct us as [|u us]; try discriminate; cbn [nth_error] in Hu.
  - injection Hu as ->. rewrite Nat.add_0_r in *.
    cbn [human_size_from]. rewrite pow1024_succ in Hhi.
    apply N.ltb_lt in Hhi. rewrite Hhi. reflexivity.
  - destruct Hlo as [Hlo|Hlo]; [discriminate|].
    cbn [human_size_from].
    assert (Hge : (n <? 1024 * 1024 ^ N.of_nat k0)%N = false).
    { apply N.ltb_ge. rewrite <- pow1024_succ.
      apply N.le_trans with (2 := Hlo). apply pow1024_le. lia. }
    rewrite Hge.
    replace (k0 + S j) with (S k0 + j) in * by lia.
    apply IH; [exact Hu | right; exact Hlo | exact Hhi].
Qed.

(** Past the last unit the value is given in PB. *)
Lemma human_size_from_last (n : N) :
  forall us k0,
    (1024 ^ N.of_nat (k0 + length us) <= n)%N ->
    human_size_from us n k0 = fmt1 n (k0 + length us) ++ lit " PB".
Proof.
  induction us as [|u us IH]; intros k0 H; cbn [human_size_from length] in *.
  - rewrite Nat.add_0_r. reflexivity.
  - assert (Hge : (n <? 1024 * 1024 ^ N.of_nat k0)%N = false).
    { apply N.ltb_ge. rewrite <- pow1024_succ.
      apply N.le_trans with (2 := H). apply pow1024_le. lia. }
    rewrite Hge.
    replace (k0 + S (length us)) with (S k0 + length us) in * by lia.
    apply IH. exact H.
Qed.

(** X7: for a size below 2^53 bytes, where the model is exact,
    [_human_size] gives the size in the largest of the units B, KB, MB,
    GB, TB that does not exceed it (B for sizes below 1024), as the size
    divided by 1024 once for each unit passed and rounded to one decimal;
    from 1024^5 bytes on it gives the size in PB. *)
Theorem human_size_unit (n : N) (k : nat) (unit : text) :
  (n < 2 ^ 53)%N ->
  (nth_error units k = Some unit ->
   k = 0 \/ (1024 ^ N.of_nat k <= n)%N ->
   (n < 1024 ^ N.of_nat (S k))%N ->
   _human_size n = fmt1 n k ++ lit " " ++ unit) /\
  ((1024 ^ 5 <= n)%N -> _human_size n = fmt1 n 5 ++ lit " PB").
Proof.
  intros _. split.
  - intros Hu Hlo Hhi. apply (human_size_from_unit n k units 0 unit Hu Hlo Hhi).
  - intros H. apply (human_size_from_last n units 0). exact H.
Qed.

Lemma human_size_unit_witness :
  _human_size 1280 = fmt1 1280 1 ++ lit " " ++ lit "KB".
Proof.
  apply (proj1 (human_size_unit 1280 1 (lit "KB") eq_refl)).
  - reflexivity.
  - right. vm_compute. discriminate.
  - vm_compute. reflexivity.
Defined.

Lemma tenths_bytes (n : N) : tenths n 0 = (10 * n)%N.
Proof.
  unfold tenths. cbn [N.of_nat]. change (1024 ^ 0)%N with 1%N. cbv zeta.
  rewrite N.mod_1_r, N.div_1_r. reflexivity.
Qed.

(** Below the bound of its unit a value is shown as at most 1024.0. *)
Lemma tenths_bound (n : N) (k : nat) :
  (n < 1024 ^ N.of_nat (S k))%N -> (tenths n k <= 10240)%N.
Proof.
  intros H. rewrite pow1024_succ in H.
  pose proof (pow1024_pos k) as Hd.
  assert (Hq : (10 * n / 1024 ^ N.of_nat k < 10240)%N).
  { apply N.Div0.div_lt_upper_bound; lia. }
  unfold tenths. cbv zeta.
  destruct (_ <? _)%N; [lia|].
  destruct (_ <? _)%N; [lia|].
  destruct (N.even _); lia.
Qed.

Lemma human_size_unit_cases (n : N) :
  (n < 1024 ^ N.of_nat 5)%N ->
  exists k unit,
    nth_error units k = Some unit /\
    (k = 0 \/ (1024 ^ N.of_nat k <= n)%N) /\
    (n < 1024 ^ N.of_nat (S k))%N.
Proof.
  intros H5.
  destruct (N.lt_ge_cases n (1024 ^ N.of_nat 1)) as [H1|H1];
    [exists 0, (lit "B"); auto|].
  destruct (N.lt_ge_cases n (1024 ^ N.of_nat 2)) as [H2|H2];
    [exists 1, (lit "KB"); auto|].
  destruct (N.lt_ge_cases n (1024 ^ N.of_nat 3)) as [H3|H3];
    [exists 2, (lit "MB"); auto|].
  destruct (N.lt_ge_cases n (1024 ^ N.of_nat 4)) as [H4|H4];
    [exists 3, (lit "GB"); auto|].
  exists 4, (lit "TB"); auto.
Qed.

(** X8: for sizes below 2^53 bytes, where the model is exact: a size
    below 1024 bytes is shown as itself with [.0 B]; and for
    every size below 1024^5 bytes the number shown is at most 1024.0, a
    bound that is reached: one byte less than a mebibyte is shown as
    [1024.0 KB]. *)
Theorem human_size_shown_number (n : N) :
  (n < 2 ^ 53)%N ->
  ((n < 1024)%N -> _human_size n = str_N n ++ lit ".0 B") /\
  ((n < 1024 ^ 5)%N ->
   exists whole frac unit,
     _human_size n =
       str_N whole ++ lit "." ++ str_N frac ++ lit " " ++ unit /\
     In unit units /\
     (whole <= 1024)%N /\ (frac < 10)%N /\ (whole = 1024%N -> frac = 0%N)) /\
  _human_size 1048575 = lit "1024.0 KB".
Proof.
  intros _. split; [|split; [|vm_compute; reflexivity]].
  - intros H.
    rewrite (human_size_from_unit n 0 units 0 (lit "B") eq_refl
               (or_introl eq_refl) H : _human_size n = _).
    unfold fmt1. rewrite tenths_bytes.
    rewrite (N.mul_comm 10 n), N.div_mul, N.Div0.mod_mul by discriminate.
    rewrite <- !app_assoc. reflexivity.
  - intros H.
    destruct (human_size_unit_cases n H) as (k & unit & Hu & Hlo & Hhi).
    pose proof (tenths_bound n k Hhi) as Hb.
    exists (tenths n k / 10)%N, (tenths n k mod 10)%N, unit.
    rewrite (human_size_from_unit n k units 0 unit Hu Hlo Hhi : _human_size n = _).
    unfold fmt1. cbn [Nat.add].
    assert (Hm : (tenths n k mod 10 < 10)%N) by (apply N.mod_lt; discriminate).
    pose proof (N.div_mod (tenths n k) 10 ltac:(discriminate)) as Hdm.
    repeat split.
    + rewrite <- !app_assoc. reflexivity.
    + apply (nth_error_In _ _ Hu).
    + apply N.Div0.div_le_upper_bound. exact Hb.
    + exact Hm.
    + intros Hw.
      set (x := tenths n k) in *. set (w := (x / 10)%N) in *.
      set (f := (x mod 10)%N) in *. clearbody w f. lia.
Qed.

Lemma human_size_shown_number_witness :
  _human_size 5 = str_N 5 ++ lit ".0 B".
Proof.
  apply (proj1 (human_size_shown_number 5 eq_refl)). vm_compute. reflexivity.
Defined.

(** ** The file loop *)







(** A dry round leaves the files and the counter as they are. *)
Lemma process_file_dry (any_ : bool) (st st' : run_state) (meta : path) :
  process_file any_ true st meta = Some st' ->
  st_files st' = st_files st /\ st_updated st' = st_updated st.
Proof.
  unfold process_file. destruct (read_text (st_files st) meta); [|discriminate].
  intros H. injection H as <-.
  destruct (normalize any_ t); split; reflexivity.
Qed.

Lemma process_files_dry (any_ : bool) (metas : list path) :
  forall st,
    (forall meta, In meta metas -> read_text (st_files st) meta <> None) ->
    exists out,
      process_files any_ true st metas =
      Some (RunState (st_files st) (st_updated st) out).
Proof.
  induction metas as [|meta metas IH]; intros st H.
  - exists (st_out st). destruct st; reflexivity.
  - cbn [process_files].
    destruct (process_file any_ true st meta) as [st'|] eqn:E.
    + destruct (process_file_dry _ _ _ _ E) as [Ef Eu].
      destruct (IH st') as (out & Ho).
      { intros m Hm. rewrite Ef. apply H. right; exact Hm. }
      exists out. rewrite Ho, Ef, Eu. reflexivity.
    + exfalso. unfold process_file in E.
      destruct (read_text (st_files st) meta) eqn:R; [discriminate|].
      apply (H meta); [left; reflexivity | exact R].
Qed.

(** X9: a dry run writes nothing: over any list of readable files it ends
    with the files exactly as they were, and reports that no file was
    updated. *)
Theorem dry_run_writes_nothing
    (any_ : bool) (fs : files) (metas : list path) :
  (forall meta, In meta metas -> read_text fs meta <> None) ->
  exists out,
    main_loop any_ true fs metas =
    Some (RunState fs 0
            (out ++ [nl ++ lit "Done. Files updated: " ++ lit "0"])).
Proof.
  intros H. unfold main_loop.
  destruct (process_files_dry any_ metas (RunState fs 0 []) H) as (out & E).
  rewrite E. exists out. reflexivity.
Qed.

Lemma dry_run_writes_nothing_witness :
  exists out,
    main_loop false true [(lit "a/carcols.meta", engine_block)]
      [lit "a/carcols.meta"] =
    Some (RunState [(lit "a/carcols.meta", engine_block)] 0
            (out ++ [nl ++ lit "Done. Files updated: " ++ lit "0"])).
Proof.
  apply dry_run_writes_nothing.
  intros meta [<-|[]]. discriminate.
Defined.






(** ** [clean_backups] *)







(** ** The form of a run's type *)

(** What a greedy repetition took, when the match goes on to succeed. *)
Lemma rep_greedy_inv (p : ascii -> bool) (k : kont) (l : text) :
  forall n pv cs r,
    rep_greedy p k n pv cs l = Some r ->
    exists w l',
      l = w ++ l' /\ Forall (fun x => p x = true) w /\
      k (Cur (n + length w) (last_or pv w) l' cs) = Some r.
Proof.
  induction l as [|a l IH]; intros n pv cs r H; cbn [rep_greedy] in H.
  - exists [], []. cbn. rewrite Nat.add_0_r. auto.
  - destruct (p a) eqn:Ha.
    + destruct (rep_greedy p k (S n) (Some a) cs l) as [r'|] eqn:E.
      * injection H as <-. destruct (IH _ _ _ _ E) as (w & l' & -> & Hw & Hk).
        exists (a :: w), l'. repeat split; [constructor; assumption|].
        cbn [length last_or fold_left].
        replace (n + S (length w)) with (S n + length w) by lia. exact Hk.
      * exists [], (a :: l). cbn. rewrite Nat.add_0_r. auto.
    + exists [], (a :: l). cbn. rewrite Nat.add_0_r. auto.
Qed.

(** Group 1 of a match of [TYPE_RE] holds no [<]. *)
Lemma match_at_TYPE_RE_group (n : nat) (pv : option ascii) (l : text)
    (c' : cursor) :
  match_at TYPE_RE n pv l = Some c' ->
  exists w cap l',
    l = w ++ cap ++ l' /\
    Forall (fun x => not_char "<"%char x = true) cap /\
    caps c' = [(1, (n + length w, n + length w + length cap))].
Proof.
  unfold match_at, TYPE_RE. cbn [run]. rewrite run_lit_ci. cbn [rest].
  destruct (starts_ci (lit "<type>") l) eqn:Hs; [|discriminate].
  destruct (starts_ci_split _ _ Hs) as (El & Lt & _).
  change (length (lit "<type>")) with 6 in *.
  set (tag := firstn 6 l) in *. set (l1 := skipn 6 l) in *.
  rewrite El. rewrite (advance_app n pv tag l1 [] 6 Lt).
  cbn [pos prev rest caps]. intros H.
  destruct (rep_greedy_inv _ _ _ _ _ _ _ H) as (sp & l2 & E1 & _ & H2).
  cbn [rest pos prev caps] in H2.
  destruct l2 as [|x l2]; [discriminate|].
  destruct (not_char "<"%char x) eqn:Hx; [|discriminate].
  cbn [pos prev rest caps] in H2.
  destruct (rep_greedy_inv _ _ _ _ _ _ _ H2) as (w2 & l3 & E2 & Hw2 & H3).
  cbn [set_cap pos prev rest caps] in H3.
  destruct (rep_greedy_inv _ _ _ _ _ _ _ H3) as (sp2 & l4 & E3 & _ & H4).
  rewrite run_lit_ci in H4. cbn [rest] in H4.
  destruct (starts_ci (lit "</type>") l4); [|discriminate].
  injection H4 as <-.
  exists (tag ++ sp), (x :: w2), l3.
  repeat split.
  - rewrite E1, E2. rewrite <- app_assoc. reflexivity.
  - constructor; assumption.
  - unfold advance. cbn [caps pos]. rewrite !length_app, Lt. cbn [length].
    do 3 f_equal; lia.
Qed.

Lemma search_TYPE_RE_group (inner : text) (tm : rmatch) :
  search TYPE_RE inner = Some tm ->
  Forall (fun x => x <> "<"%char) (m_group inner tm 1).
Proof.
  unfold search. destruct (search_from TYPE_RE 0 None inner) as [[s c']|] eqn:E;
    [|discriminate].
  intros H. injection H as <-.
  destruct (search_from_spec _ _ _ _ _ _ E) as (w0 & l1 & -> & -> & Hm).
  destruct (match_at_TYPE_RE_group _ _ _ _ Hm) as (w & cap & l' & -> & Hc & Hcaps).
  unfold m_group. cbn [m_caps]. rewrite Hcaps. cbn [cap_lookup Nat.eqb].
  replace (w0 ++ w ++ cap ++ l') with ((w0 ++ w) ++ cap ++ l')
    by (rewrite <- app_assoc; reflexivity).
  replace (0 + length w0 + length w) with (length (w0 ++ w))
    by (rewrite length_app; lia).
  rewrite slice_app_skip, firstn_app_len.
  revert Hc. apply Forall_impl. intros x Hx ->. discriminate.
Qed.

Lemma lstrip_Forall (P : ascii -> Prop) (s : text) :
  Forall P s -> Forall P (lstrip s).
Proof.
  induction 1 as [|x s Hx Hs IH]; cbn [lstrip]; [constructor|].
  destruct (is_space x); [exact IH | constructor; assumption].
Qed.

Lemma strip_Forall (P : ascii -> Prop) (s : text) :
  Forall P s -> Forall P (strip s).
Proof.
  intros H. unfold strip, rstrip.
  apply Forall_rev, lstrip_Forall, Forall_rev, lstrip_Forall. exact H.
Qed.

Lemma upper_char_idem (x : ascii) : upper_char (upper_char x) = upper_char x.
Proof. destruct x as [[] [] [] [] [] [] [] []]; reflexivity. Qed.

Lemma is_space_upper_char (x : ascii) : is_space (upper_char x) = is_space x.
Proof. destruct x as [[] [] [] [] [] [] [] []]; reflexivity. Qed.

Lemma upper_char_not_lt (x : ascii) :
  x <> "<"%char -> upper_char x <> "<"%char.
Proof.
  destruct x as [[] [] [] [] [] [] [] []]; intros H; try discriminate.
  exfalso; apply H; reflexivity.
Qed.

Lemma upper_idem (s : text) : upper (upper s) = upper s.
Proof.
  unfold upper. rewrite map_map. apply map_ext. apply upper_char_idem.
Qed.

Lemma lstrip_upper (s : text) : lstrip (upper s) = upper (lstrip s).
Proof.
  induction s as [|c s IH]; [reflexivity|].
  cbn [upper map lstrip]. rewrite is_space_upper_char.
  destruct (is_space c); [exact IH | reflexivity].
Qed.

(** Trimming and putting in upper case can be done in either order. *)
Lemma strip_upper (s : text) : strip (upper s) = upper (strip s).
Proof.
  unfold strip, rstrip. rewrite lstrip_upper.
  unfold upper at 1. rewrite <- map_rev. fold (upper (rev (lstrip s))).
  rewrite lstrip_upper. unfold upper. rewrite map_rev. reflexivity.
Qed.

(** The indentation and the type of a run, as they are rendered. *)
Lemma run_type_canonical (any_ : bool) (t : text) (g : group) :
  In g (group_runs any_ t (scan_items t)) ->
  Forall (fun x => is_blank x = true) (g_indent g) /\
  qualifies any_ (Some (g_vt g)) = true /\
  upper (g_vt g) = g_vt g /\ strip (g_vt g) = g_vt g /\
  Forall (fun x => x <> "<"%char) (g_vt g).
Proof.
  intros Hg.
  destruct (grouped_in any_ t _ _ (group_runs_grouped any_ t (scan_items t)) g Hg)
    as (it & v & _ & Hit & _ & Hv & Hq & _ & Hi & Hvt & _).
  rewrite Hi, Hvt.
  destruct (scan_items_sound t it Hit)
    as ((_ & tag & attrs & inner & close & _ & _ & Hb & _) & _).
  pose proof (scan_items_stripped t it v Hit Hv) as Hs.
  assert (Hlt : Forall (fun x => x <> "<"%char) v).
  { unfold scan_items in Hit. apply in_map_iff in Hit as (m & <- & _).
    cbn [scan_one i_vtype] in Hv.
    destruct (search TYPE_RE (m_group t m 2)) as [tm|] eqn:E; [|discriminate].
    injection Hv as <-. apply strip_Forall.
    apply (search_TYPE_RE_group _ _ E). }
  repeat split.
  - exact Hb.
  - apply qualifies_spec in Hq as (v' & Ev & Hp & Ht). injection Ev as <-.
    apply qualifies_spec. exists (upper v). rewrite upper_idem. auto.
  - apply upper_idem.
  - rewrite strip_upper, Hs. reflexivity.
  - unfold upper. apply Forall_map. revert Hlt. apply Forall_impl.
    apply upper_char_not_lt.
Qed.



(** X14: what is rendered for a run is a run again: a round on the four
    blocks rendered for any run of any text, followed by any number of line
    feeds, replaces them by the same four blocks and one more line feed. *)
Theorem rendered_run_is_replaced_again
    (any_ : bool) (t : text) (g : group) (k : nat) :
  In g (group_runs any_ t (scan_items t)) ->
  normalize any_
    (build_items (g_indent g) (g_vt g) ++ repeat "010"%char k) =
  Replaced (build_items (g_indent g) (g_vt g) ++ repeat "010"%char (S k)) 1.
Proof.
  intros Hg.
  destruct (run_type_canonical any_ t g Hg) as (Hb & Hq & Hu & Hs & Hl).
  apply normalize_rendered; try assumption.
  intros E. rewrite E in Hq. discriminate.
Qed.

Lemma rendered_run_is_replaced_again_witness :
  normalize false
    (build_items (lit "  ") (lit "VMT_BRAKES") ++ repeat "010"%char 0) =
  Replaced (build_items (lit "  ") (lit "VMT_BRAKES") ++ repeat "010"%char 1) 1.
Proof.
  apply (rendered_run_is_replaced_again false mixed_case_text
           (Group 7 55 (lit "  ") (lit "VMT_BRAKES")) 0).
  vm_compute. left; reflexivity.
Defined.
